(** * smartquotes: straight quotes to directional quotes, markdown aware

    A shallow embedding of [smartquotes/core.py] and of the parts of the
    Python run time it uses (string indexing, [str.replace], [re.sub]),
    followed by the properties of the two public functions
    [convert_to_smart_quotes] and [smart_quote_markdown]. *)

From Stdlib Require Import String Ascii Decimal DecimalString.
From Stdlib Require DecimalNat DecimalFacts.
From Stdlib Require Import ZArith Bool Lia List.
Import ListNotations.

Set Implicit Arguments.

(* ===================================================================== *)
(** * Python strings and exceptions *)
(* ===================================================================== *)

Module Py.

(** A Python [str] is a sequence of Unicode code points.  A single
    character is a [str] of length one, the empty string is [[]]. *)
Definition char := Z.
Definition str := list char.

(** The one exception string indexing can raise. *)
Inductive exn : Type := IndexError.

Inductive exc (A : Type) : Type :=
| Ok (a : A)
| Raise (e : exn).
Arguments Ok {A} a.
Arguments Raise {A} e.

Definition bind {A B : Type} (m : exc A) (k : A -> exc B) : exc B :=
  match m with
  | Ok a => k a
  | Raise e => Raise e
  end.

(** A string literal without non-ASCII characters, as code points. *)
Definition lit (s : string) : str :=
  map (fun a => Z.of_N (N_of_ascii a)) (list_ascii_of_string s).

(** [len(s)] *)
Definition len (s : str) : Z := Z.of_nat (length s).

(** [s[i]]: a negative index counts from the end, an index out of range
    raises. *)
Definition getitem (s : str) (i : Z) : exc str :=
  let j := if (i <? 0)%Z then (i + len s)%Z else i in
  if ((0 <=? j) && (j <? len s))%Z
  then match nth_error s (Z.to_nat j) with
       | Some c => Ok [c]
       | None => Raise IndexError
       end
  else Raise IndexError.

(** [a == b] on strings *)
Fixpoint eqb (a b : str) : bool :=
  match a, b with
  | [], [] => true
  | x :: a', y :: b' => (x =? y)%Z && eqb a' b'
  | _, _ => false
  end.

(** [s.startswith(p)] *)
Fixpoint startswith (p s : str) : bool :=
  match p, s with
  | [], _ => true
  | x :: p', y :: s' => (x =? y)%Z && startswith p' s'
  | _ :: _, [] => false
  end.

(** [needle in s] for strings: substring test *)
Fixpoint contains (needle s : str) : bool :=
  match s with
  | [] => startswith needle []
  | _ :: s' => startswith needle s || contains needle s'
  end.

(** [x in frozenset([...])] *)
Definition set_mem (x : str) (set : list str) : bool :=
  existsb (eqb x) set.

(** [enumerate(s)] *)
Fixpoint enumerate_from (i : Z) (s : str) : list (Z * str) :=
  match s with
  | [] => []
  | c :: s' => (i, [c]) :: enumerate_from (i + 1) s'
  end.
Definition enumerate (s : str) : list (Z * str) := enumerate_from 0 s.

(** ["".join(parts)] *)
Definition join (parts : list str) : str := concat parts.

(** [s.replace(old, new)]: every non-overlapping occurrence of [old],
    from the left.  [skip] counts the characters of an occurrence just
    replaced that are still to be passed over.  An empty [old] matches
    between all characters and at both ends. *)
Fixpoint replace_go (old new : str) (skip : nat) (s : str) : str :=
  match s with
  | [] => []
  | c :: s' =>
      match skip with
      | S k => replace_go old new k s'
      | O =>
          if startswith old s
          then new ++ replace_go old new (length old - 1) s'
          else c :: replace_go old new 0 s'
      end
  end.

Fixpoint intersperse (new : str) (s : str) : str :=
  match s with
  | [] => new
  | c :: s' => new ++ c :: intersperse new s'
  end.

Definition replace (s old new : str) : str :=
  match old with
  | [] => intersperse new s
  | _ :: _ => replace_go old new 0 s
  end.

(** [f"{n}"] for a non-negative integer: its decimal digits. *)
Definition format_int (n : nat) : str :=
  lit (NilZero.string_of_uint (Nat.to_uint n)).

End Py.

Declare Scope exc_scope.
Delimit Scope exc_scope with exc.
Notation "x <- m ;; k" := (Py.bind m (fun x => k))
  (at level 61, m at next level, right associativity) : exc_scope.

(* ===================================================================== *)
(** * The part of Python's [re] the program uses *)
(* ===================================================================== *)

(** Python's matcher is a backtracking one: at a position it explores the
    alternatives of a pattern in a fixed order of preference and reports
    the first way the whole pattern matches.  The embedding keeps this
    order: [run r st] lists, most preferred first, every state in which
    a match of [r] begun in [st] can end. *)

Module Re.
Import Py.

Inductive regex : Type :=
| Eps                                 (* the empty pattern *)
| Sat (p : char -> bool)              (* one character: literal, class, dot *)
| Bos                                 (* [^] without MULTILINE *)
| Seq (r1 r2 : regex)                 (* r1r2 *)
| Alt (r1 r2 : regex)                 (* r1|r2 *)
| Star (greedy : bool) (r : regex)    (* r* and r*? *)
| Group (n : nat) (r : regex)         (* (r), the n-th capturing group *)
| Backref (n : nat).                  (* a backreference: \1, \2, ... *)

(** a literal character *)
Definition Chr (c : char) : regex := Sat (Z.eqb c).

(** [r+] and [r+?] *)
Definition Plus (greedy : bool) (r : regex) : regex := Seq r (Star greedy r).

(** [r{n}] *)
Fixpoint Times (n : nat) (r : regex) : regex :=
  match n with
  | O => Eps
  | S n' => Seq r (Times n' r)
  end.

(** [\s] on [str] patterns: the characters for which [str.isspace] holds. *)
Definition is_space (c : char) : bool :=
  ((9 <=? c) && (c <=? 13) || (28 <=? c) && (c <=? 32) || (c =? 133)
   || (c =? 160) || (c =? 5760) || (8192 <=? c) && (c <=? 8202)
   || (c =? 8232) || (c =? 8233) || (c =? 8239) || (c =? 8287)
   || (c =? 12288))%Z.

(** [[\s\S]] *)
Definition SpaceOrNot : regex := Sat (fun c => is_space c || negb (is_space c)).

(** [.] without DOTALL: any character but the newline *)
Definition Dot : regex := Sat (fun c => negb (c =? 10)%Z).

(** The matcher's state: the offset in the subject string, what is left
    of it from there, and the groups captured so far. *)
Record mstate : Type := MState {
  pos : nat;
  rest : str;
  groups : list (nat * str)
}.

Definition advance (n : nat) (st : mstate) : mstate :=
  {| pos := pos st + n; rest := skipn n (rest st); groups := groups st |}.

Fixpoint lookup (n : nat) (gs : list (nat * str)) : option str :=
  match gs with
  | [] => None
  | (k, g) :: gs' => if Nat.eqb k n then Some g else lookup n gs'
  end.

(** what a match from [st] to [st'] consumed *)
Definition consumed (st st' : mstate) : str :=
  firstn (pos st' - pos st) (rest st).

Definition set_group (n : nat) (st st' : mstate) : mstate :=
  {| pos := pos st'; rest := rest st';
     groups := (n, consumed st st') :: groups st' |}.

(** Repetition of [step].  A greedy repetition prefers one more round,
    a lazy one prefers to stop.  A round that consumes nothing ends the
    repetition, so [fuel], the number of characters left, bounds the
    number of rounds exactly ([ReFacts.iterate_enough]). *)
Fixpoint iterate (greedy : bool) (step : mstate -> list mstate)
         (fuel : nat) (st : mstate) : list mstate :=
  match fuel with
  | O => [st]
  | S fuel' =>
      let more :=
        flat_map (fun st' =>
                    if length (rest st') <? length (rest st)
                    then iterate greedy step fuel' st'
                    else [])
                 (step st) in
      if greedy then more ++ [st] else st :: more
  end.

Fixpoint run (r : regex) (st : mstate) : list mstate :=
  match r with
  | Eps => [st]
  | Sat p =>
      match rest st with
      | c :: _ => if p c then [advance 1 st] else []
      | [] => []
      end
  | Bos => if Nat.eqb (pos st) 0 then [st] else []
  | Seq r1 r2 => flat_map (run r2) (run r1 st)
  | Alt r1 r2 => run r1 st ++ run r2 st
  | Star greedy r1 => iterate greedy (run r1) (length (rest st)) st
  | Group n r1 => map (set_group n st) (run r1 st)
  | Backref n =>
      match lookup n (groups st) with
      | Some g => if startswith g (rest st) then [advance (length g) st] else []
      | None => []
      end
  end.

(** The first match of [r] that starts at offset [i], where [s] is the
    subject from [i] on.  With [must_advance] an empty match is refused
    and the matcher backtracks to the next alternative. *)
Definition match_at (r : regex) (i : nat) (s : str) (must_advance : bool)
  : option mstate :=
  find (fun st' => negb must_advance || (i <? pos st'))
       (run r {| pos := i; rest := s; groups := [] |}).

(** [pattern.match(s)]: a match at the start of [s], or [None]. *)
Definition re_match (r : regex) (s : str) : option mstate :=
  match_at r 0 s false.

(** The leftmost match at or after offset [i]: the text before it, the
    matched text and the text after it.  [must_advance] only concerns
    the first offset tried. *)
Fixpoint search (r : regex) (i : nat) (s : str) (must_advance : bool)
  : option (str * str * str) :=
  match match_at r i s must_advance with
  | Some st' => Some ([], firstn (pos st' - i) s, rest st')
  | None =>
      match s with
      | [] => None
      | c :: s' =>
          match search r (S i) s' false with
          | Some (pre, m, post) => Some (c :: pre, m, post)
          | None => None
          end
      end
  end.

(** [re.sub(pattern, repl, text)] with a callable [repl], which is given
    the matched text ([match.group(0)]) and may update the state [A] it
    closes over.  The loop is the one of the C implementation: search
    from the end of the previous match, copy the text skipped, append
    the replacement, and after an empty match ask the next search to
    advance.  Every round but one after an empty match moves on in the
    text, so twice its length and two bound the rounds
    ([ReFacts.sub_enough]). *)
Section Sub.
Variable A : Type.
Variable r : regex.
Variable repl : str -> A -> str * A.

Fixpoint sub_loop (fuel : nat) (i : nat) (s : str) (must_advance : bool)
         (acc : A) : str * A :=
  match fuel with
  | O => (s, acc)
  | S fuel' =>
      match search r i s must_advance with
      | None => (s, acc)
      | Some (pre, m, post) =>
          let (item, acc1) := repl m acc in
          let (tail, acc2) :=
            sub_loop fuel' (i + length pre + length m) post
                     (Nat.eqb (length m) 0) acc1 in
          (pre ++ item ++ tail, acc2)
      end
  end.

Definition sub (text : str) (acc : A) : str * A :=
  sub_loop (2 * length text + 2) 0 text false acc.
End Sub.

End Re.

(* ===================================================================== *)
(** * smartquotes/core.py *)
(* ===================================================================== *)

Module core.
Import Py Re.
Local Open Scope exc_scope.

Record QuoteChars : Type := {
  LEFT_DOUBLE : str;
  RIGHT_DOUBLE : str;
  LEFT_SINGLE : str;
  RIGHT_SINGLE : str;
  STRAIGHT_DOUBLE : str;
  STRAIGHT_SINGLE : str
}.

Definition QUOTES : QuoteChars := {|
  LEFT_DOUBLE := [8220%Z];        (* U+201C *)
  RIGHT_DOUBLE := [8221%Z];       (* U+201D *)
  LEFT_SINGLE := [8216%Z];        (* U+2018 *)
  RIGHT_SINGLE := [8217%Z];       (* U+2019 *)
  STRAIGHT_DOUBLE := [34%Z];      (* U+0022 *)
  STRAIGHT_SINGLE := [39%Z]       (* U+0027 *)
|}.

(** Characters that indicate an opening quote should follow *)
Definition _OPENING_CONTEXT : list str :=
  [ lit " ";
    [9%Z];                        (* \t *)
    [10%Z];                       (* \n *)
    [13%Z];                       (* \r *)
    lit "(";
    lit "[";
    lit "{";
    lit "<";
    LEFT_DOUBLE QUOTES;
    LEFT_SINGLE QUOTES ].

(** [[a-zA-Z]] *)
Definition _LETTER_REGEX : regex :=
  Sat (fun c => ((97 <=? c) && (c <=? 122) || (65 <=? c) && (c <=? 90))%Z).

Definition _is_letter (char : str) : bool :=
  match re_match _LETTER_REGEX char with
  | Some _ => true
  | None => false
  end.

Definition _is_opening_context (prev_char : str) (is_start : bool)
           (opposite_quote : str) : bool :=
  is_start || set_mem prev_char _OPENING_CONTEXT || eqb prev_char opposite_quote.

Definition _convert_char (char prev_char next_char : str) (is_start : bool)
  : str :=
  if eqb char (STRAIGHT_DOUBLE QUOTES) then
    if _is_opening_context prev_char is_start (LEFT_SINGLE QUOTES)
    then LEFT_DOUBLE QUOTES
    else RIGHT_DOUBLE QUOTES
  else if eqb char (STRAIGHT_SINGLE QUOTES) then
    if _is_letter prev_char && _is_letter next_char
    then RIGHT_SINGLE QUOTES
    else if _is_opening_context prev_char is_start (LEFT_DOUBLE QUOTES)
    then LEFT_SINGLE QUOTES
    else RIGHT_SINGLE QUOTES
  else char.

(** The body of the [for] loop of [convert_to_smart_quotes], over what
    [enumerate(text)] still has to yield; [result] is the list built so
    far. *)
Fixpoint convert_loop (text : str) (items : list (Z * str))
         (result : list str) : exc (list str) :=
  match items with
  | [] => Ok result
  | (i, char) :: items' =>
      prev_char <- (if (i >? 0)%Z then getitem text (i - 1) else Ok []) ;;
      next_char <- (if (i <? len text - 1)%Z then getitem text (i + 1)
                    else Ok []) ;;
      convert_loop text items'
        (result ++ [_convert_char char prev_char next_char (i =? 0)%Z])
  end.

Definition convert_to_smart_quotes (text : str) : exc str :=
  result <- convert_loop text (enumerate text) [] ;;
  Ok (join result).

Definition _has_straight_quotes (text : str) : bool :=
  contains (STRAIGHT_DOUBLE QUOTES) text
  || contains (STRAIGHT_SINGLE QUOTES) text.

Definition _PLACEHOLDER_PREFIX : str := lit "<<SMART_QUOTES_CODE_BLOCK_".
Definition _PLACEHOLDER_SUFFIX : str := lit ">>".

Record _CodeBlock : Type := {
  placeholder : str;
  content : str
}.

(** The variables of [smart_quote_markdown] that [create_placeholder]
    closes over and updates. *)
Record locals : Type := {
  code_blocks : list _CodeBlock;
  placeholder_index : nat
}.

Definition create_placeholder (group0 : str) (l : locals) : str * locals :=
  let content := group0 in
  let placeholder :=
    _PLACEHOLDER_PREFIX ++ format_int (placeholder_index l)
                        ++ _PLACEHOLDER_SUFFIX in
  (placeholder,
   {| code_blocks := code_blocks l
                     ++ [ {| placeholder := placeholder; content := content |} ];
      placeholder_index := placeholder_index l + 1 |}).

Definition backtick : regex := Chr 96%Z.         (* ` *)
Definition newline : regex := Chr 10%Z.          (* \n *)

(** [```[\s\S]*?```] *)
Definition FENCED : regex :=
  Seq (Times 3 backtick) (Seq (Star false SpaceOrNot) (Times 3 backtick)).

(** [(`+)[\s\S]*?\1] *)
Definition INLINE : regex :=
  Seq (Group 1 (Plus true backtick)) (Seq (Star false SpaceOrNot) (Backref 1)).

(** [(?:[ ]{4}|\t)] *)
Definition indent : regex := Alt (Times 4 (Chr 32%Z)) (Chr 9%Z).

(** [(?:^|\n)( I .* (?: \n I .* )* )] where [I] stands for
    [(?:[ ]{4}|\t)] (written here with blanks between the tokens) *)
Definition INDENTED : regex :=
  Seq (Alt Bos newline)
      (Group 1
         (Seq indent
              (Seq (Star true Dot)
                   (Star true (Seq newline (Seq indent (Star true Dot))))))).

(** Steps 1 to 3: the three extraction passes, in this order. *)
Definition mask (text : str) : str * locals :=
  let l := {| code_blocks := []; placeholder_index := 0 |} in
  let processed := text in
  let (processed, l) := sub FENCED create_placeholder processed l in
  let (processed, l) := sub INLINE create_placeholder processed l in
  let (processed, l) := sub INDENTED create_placeholder processed l in
  (processed, l).

(** Step 5: the [for block in code_blocks] loop. *)
Definition restore (blocks : list _CodeBlock) (processed : str) : str :=
  fold_left (fun processed block =>
               replace processed (placeholder block) (content block))
            blocks processed.

(** Everything below the early exit. *)
Definition pipeline (text : str) : exc str :=
  let (processed, l) := mask text in
  processed <- convert_to_smart_quotes processed ;;
  Ok (restore (code_blocks l) processed).

Definition smart_quote_markdown (text : str) : exc str :=
  if negb (_has_straight_quotes text) then Ok text
  else pipeline text.

End core.

(* ===================================================================== *)
(** * The rules of the specification, in its own words *)
(* ===================================================================== *)

Module Spec.
Import Py.
Local Open Scope Z_scope.

(** The window of position [i]: the previous character (none at the
    start), the next one (none at the end) and the start-of-text flag. *)
Definition prev_of (text : str) (i : nat) : option char :=
  match i with
  | O => None
  | S j => nth_error text j
  end.
Definition next_of (text : str) (i : nat) : option char := nth_error text (S i).
Definition is_start_of (i : nat) : bool := Nat.eqb i 0.

Definition window (text : str) (i : nat)
  : option char * option char * option char * bool :=
  (prev_of text i, nth_error text i, next_of text i, is_start_of i).

(** space, tab, newline, carriage return, ( [ { <, and the two left
    smart quotes *)
Definition opening_context_set : list char :=
  [32; 9; 10; 13; 40; 91; 123; 60; 8220; 8216].

Definition in_opening_context (prev : option char) : bool :=
  match prev with
  | Some c => existsb (Z.eqb c) opening_context_set
  | None => false
  end.

Definition is_char (c : char) (x : option char) : bool :=
  match x with
  | Some d => d =? c
  | None => false
  end.

(** ASCII [[a-zA-Z]] only *)
Definition ascii_letter (x : option char) : bool :=
  match x with
  | Some c => (97 <=? c) && (c <=? 122) || (65 <=? c) && (c <=? 90)
  | None => false
  end.

(** The per-character decision procedure. *)
Definition emit (prev : option char) (cur : char) (next : option char)
           (is_start : bool) : char :=
  if cur =? 34 then
    if is_start || in_opening_context prev || is_char 8216 prev
    then 8220 else 8221
  else if cur =? 39 then
    if ascii_letter prev && ascii_letter next then 8217
    else if is_start || in_opening_context prev || is_char 8220 prev
    then 8216 else 8217
  else cur.

End Spec.

(* ===================================================================== *)
(** * Auxiliary definitions used in the statements and proofs *)
(* ===================================================================== *)

Module Aux.
Import Py Re core.

(** The string a window component stands for in the code: a character,
    or the empty string. *)
Definition as_str (x : option char) : str :=
  match x with
  | Some c => [c]
  | None => []
  end.

(** One pass over the text with the previous character carried along:
    what the indexed loop of [convert_to_smart_quotes] computes. *)
Fixpoint walk (is_start : bool) (prev : option char) (s : str) : list str :=
  match s with
  | [] => []
  | c :: s' =>
      _convert_char [c] (as_str prev) (as_str (hd_error s')) is_start
        :: walk false (Some c) s'
  end.

(** the last character of the part of the text already visited *)
Definition last_of (pre : str) : option char := hd_error (rev pre).

(** [st'] lies [k] characters after [st] in the same subject. *)
Definition extends (st st' : mstate) : Prop :=
  exists k, k <= length (rest st) /\ pos st' = pos st + k /\
            rest st' = skipn k (rest st).

(** What bounds the rounds of [sub_loop] still to come: two for every
    character left, one less once an empty match has been seen here. *)
Definition measure (s : str) (ma : bool) : nat :=
  2 * length s + (if ma then 1 else 2).

(** ** Delimiters *)

Definition bt : char := 96%Z.
Definition bt3 : str := [bt; bt; bt].

(** [s.find(d)]: the offset of the first occurrence of [d] in [s]. *)
Fixpoint index_of (d s : str) : option nat :=
  if startswith d s then Some 0
  else match s with
       | [] => None
       | _ :: s' => option_map S (index_of d s')
       end.

(** the length of the run of [c] that [s] begins with *)
Fixpoint run_len (c : char) (s : str) : nat :=
  match s with
  | x :: s' => if (c =? x)%Z then S (run_len c s') else 0
  | [] => 0
  end.

(** [n; n-1; ...; 1] *)
Fixpoint down (n : nat) : list nat :=
  match n with
  | O => []
  | S m => S m :: down m
  end.

(** The inline span that begins [s], if any: for the longest opener of
    [n] backticks, among the candidates [ns], that occurs again after
    itself, the opener length [n] and the offset [k] of its first
    recurrence. *)
Fixpoint inline_span_at (s : str) (ns : list nat) : option (nat * nat) :=
  match ns with
  | [] => None
  | n :: ns' =>
      match index_of (repeat bt n) (skipn n s) with
      | Some k => Some (n, k)
      | None => inline_span_at s ns'
      end
  end.

Definition inline_match (s : str) : option (nat * nat) :=
  inline_span_at s (down (run_len bt s)).

(** The fence that begins [s] has a closing fence. *)
Definition fenced_at (s : str) : bool :=
  startswith bt3 s && contains bt3 (skipn 3 s).

(** Some fence in [s] has a closing fence. *)
Fixpoint has_fence (s : str) : bool :=
  fenced_at s
  || match s with
     | [] => false
     | _ :: s' => has_fence s'
     end.

(** Some opener of backticks that begins [s] occurs again after itself. *)
Definition inline_at (s : str) : bool :=
  existsb (fun n => contains (repeat bt n) (skipn n s)) (down (run_len bt s)).

Fixpoint has_inline (s : str) : bool :=
  inline_at s
  || match s with
     | [] => false
     | _ :: s' => has_inline s'
     end.

(** The shape of an inline code span: [n] backticks, a content, and the
    first [n] backticks that follow the opener. *)
Definition inline_span (m : str) : Prop :=
  exists n c,
    1 <= n /\ m = repeat bt n ++ c ++ repeat bt n /\
    forall j, j < length c ->
              startswith (repeat bt n) (skipn j (c ++ repeat bt n)) = false.

(** ** Texts used in the examples *)

Definition dq : str := [34%Z].            (* the straight double quote *)
Definition sq : str := [39%Z].            (* the straight single quote *)
Definition nl : str := [10%Z].            (* the newline *)
Definition ldq : str := LEFT_DOUBLE QUOTES.
Definition rdq : str := RIGHT_DOUBLE QUOTES.
Definition lsq : str := LEFT_SINGLE QUOTES.
Definition rsq : str := RIGHT_SINGLE QUOTES.

(** the variables of [smart_quote_markdown] before the first pass *)
Definition no_blocks : locals :=
  {| code_blocks := []; placeholder_index := 0 |}.

(** the first placeholder *)
Definition placeholder_0 : str := lit "<<SMART_QUOTES_CODE_BLOCK_0>>".

(** an indented code block with an inline span and a quoted word *)
Definition indented_with_inline : str :=
  lit "    say `hi` " ++ dq ++ lit "now" ++ dq.


(** a fence that is never closed, followed by a quote *)
Definition unterminated_fence : str := lit "```" ++ dq.

End Aux.


(* ===================================================================== *)
(** * Further auxiliary definitions *)
(* ===================================================================== *)

Module More.
Import Py Re core Spec Aux.
Local Open Scope Z_scope.

(** ** The Director with the previous character only *)

(** At the start of the text, or after a character of the opening
    context. *)
Definition opens (prev : option char) : bool :=
  match prev with
  | None => true
  | Some c => existsb (Z.eqb c) opening_context_set
  end.

(** The direction of a quote read from the previous character alone. *)
Definition emit_prev (prev : option char) (cur : char) : char :=
  if cur =? 34 then (if opens prev then 8220 else 8221)
  else if cur =? 39 then (if opens prev then 8216 else 8217)
  else cur.

Fixpoint emit_all (prev : option char) (s : str) : str :=
  match s with
  | [] => []
  | c :: s' => emit_prev prev c :: emit_all (Some c) s'
  end.

(** ** Placeholders *)

(** the placeholder of the block discovered [j]-th, counting from 0 *)
Definition placeholder_of (j : nat) : str :=
  _PLACEHOLDER_PREFIX ++ format_int j ++ _PLACEHOLDER_SUFFIX.

(** the characters a placeholder is made of: [<], [>], [_], capital
    letters and digits *)
Definition placeholder_char (c : char) : bool :=
  (c =? 60) || (c =? 62) || (c =? 95)
  || (65 <=? c) && (c <=? 90) || (48 <=? c) && (c <=? 57).

(** The invariant the three passes keep: the index counts the blocks
    recorded, and the block of rank [j] carries the placeholder of [j]. *)
Definition numbered_inv (l : locals) : Prop :=
  placeholder_index l = length (code_blocks l) /\
  forall j b, nth_error (code_blocks l) j = Some b ->
              placeholder b = placeholder_of j.

(** ** Fenced blocks *)

(** The shape of a fenced block: a fence, a content, and the first fence
    that follows the opening one. *)
Definition fenced_block (m : str) : Prop :=
  exists c,
    m = bt3 ++ c ++ bt3 /\
    forall j, (j < length c)%nat ->
              startswith bt3 (skipn j (c ++ bt3)) = false.

(** ** Indented blocks *)

Definition sp4 : str := [32; 32; 32; 32].

(** the length of the indentation that begins [s], if any: four spaces,
    or else one tab *)
Definition indent_len (s : str) : option nat :=
  if startswith sp4 s then Some 4%nat
  else if startswith [9] s then Some 1%nat
  else None.

(** the length of the longest prefix of [s] whose characters satisfy [p] *)
Fixpoint span_len (p : char -> bool) (s : str) : nat :=
  match s with
  | c :: s' => if p c then S (span_len p s') else O
  | [] => O
  end.

Definition not_newline (c : char) : bool := negb (c =? 10).

(** the number of characters before the first newline *)
Definition line_len (s : str) : nat := span_len not_newline s.

(** the length of the indented line that begins [s]: its indentation and
    all that follows up to the newline *)
Definition indented_line_len (s : str) : option nat :=
  match indent_len s with
  | Some k => Some (k + line_len (skipn k s))%nat
  | None => None
  end.

(** the length of the further lines of a block that begin [s]: a newline
    and an indented line, as often as possible *)
Fixpoint more_lines_len (fuel : nat) (s : str) : nat :=
  match fuel with
  | O => O
  | S fuel' =>
      match s with
      | c :: s1 =>
          if c =? 10 then
            match indented_line_len s1 with
            | Some n => (S n + more_lines_len fuel' (skipn (S n) s))%nat
            | None => O
            end
          else O
      | [] => O
      end
  end.

(** the length of the block of indented lines that begins [s] *)
Definition block_len (s : str) : option nat :=
  match indented_line_len s with
  | Some n =>
      Some (n + more_lines_len (length (skipn n s)) (skipn n s))%nat
  | None => None
  end.

(** the length of the match of the indented pattern at offset [i], where
    [s] is the text from [i] on: a block at the very start of the text,
    or a newline and a block *)
Definition indented_match (i : nat) (s : str) : option nat :=
  match (if Nat.eqb i 0 then block_len s else None) with
  | Some n => Some n
  | None =>
      match s with
      | c :: s1 => if c =? 10 then option_map S (block_len s1) else None
      | [] => None
      end
  end.

Definition is_some {A : Type} (x : option A) : bool :=
  match x with
  | Some _ => true
  | None => false
  end.

(** some line of [s] after the first is indented *)
Fixpoint indent_after_newline (s : str) : bool :=
  match s with
  | c :: s' => (c =? 10) && is_some (indent_len s') || indent_after_newline s'
  | [] => false
  end.

(** some line of the text is indented *)
Definition has_indented (text : str) : bool :=
  is_some (indent_len text) || indent_after_newline text.

(** the lines joined by newlines *)
Fixpoint join_lines (lines : list str) : str :=
  match lines with
  | [] => []
  | [l] => l
  | l :: ls => l ++ 10 :: join_lines ls
  end.

(** a line that begins with four spaces or a tab *)
Definition indented_line (l : str) : Prop :=
  indent_len l <> None /\ ~ In 10 l.

(** The shape of an indented block: one or more indented lines, after
    the newline that precedes the first (unless the block begins the
    text). *)
Definition indented_block (m : str) : Prop :=
  exists lines,
    lines <> [] /\ Forall indented_line lines /\
    (m = join_lines lines \/ m = 10 :: join_lines lines).

(** a line ends the text or stands before a newline *)
Definition at_line_end (r : str) : Prop := r = [] \/ exists r', r = 10 :: r'.

(** what ends a block: the end of the text, or a newline before a line
    that is not indented *)
Definition at_block_end (r : str) : Prop :=
  r = [] \/ exists r', r = 10 :: r' /\ indent_len r' = None.

(** an indented block as the pattern matches it at offset [i]: the lines
    stand after a newline, unless the block begins the text *)
Definition indented_block_at (i : nat) (m : str) : Prop :=
  exists lines,
    lines <> [] /\ Forall indented_line lines /\
    ((i = 0%nat /\ m = join_lines lines) \/ m = 10 :: join_lines lines).

(** ** What a pass does to a text *)

(** The text made of the [parts] and a [last] piece: every part is a
    piece of text followed by what [f] shows of its block. *)
Fixpoint weave (f : _CodeBlock -> str) (parts : list (str * _CodeBlock))
         (last : str) : str :=
  match parts with
  | [] => last
  | (pre, b) :: parts' => pre ++ f b ++ weave f parts' last
  end.

(** From the text [t] and the variables [l] a pass gave the text [t'] and
    the variables [l']: it replaced, from left to right, regions of shape
    [Q] of [t] by placeholders, and recorded them in this order after
    the blocks [l] held. *)
Definition replaced (Q : str -> Prop) (t : str) (l : locals)
           (t' : str) (l' : locals) : Prop :=
  exists parts last,
    t = weave content parts last /\
    t' = weave placeholder parts last /\
    code_blocks l' = code_blocks l ++ map snd parts /\
    Forall (fun p => Q (content (snd p))) parts.

(** ** Further texts used in the examples *)


(** a fence that is never closed, a quoted word and two backticks *)
Definition open_fence_over_quotes : str :=
  lit "``` " ++ dq ++ lit "x" ++ dq ++ lit " ``".

End More.
(* ===================================================================== *)
(** * The Quote Director *)
(* ===================================================================== *)

Module Director.
Import Py Re core Spec Aux.
Local Open Scope exc_scope.

Lemma eqb_eq (a b : str) : Py.eqb a b = true <-> a = b.
Proof.
  revert b; induction a as [|x a IH]; intros [|y b]; simpl; split;
    try congruence; try reflexivity.
  - intros H. apply andb_true_iff in H as [H1 H2].
    apply Z.eqb_eq in H1. apply IH in H2. congruence.
  - intros H. injection H as -> ->. rewrite Z.eqb_refl. simpl.
    now apply IH.
Qed.

Lemma len_app (a b : str) : len (a ++ b) = (len a + len b)%Z.
Proof. unfold len. rewrite length_app. lia. Qed.

Lemma getitem_mid (pre : str) (c : char) (post : str) :
  getitem (pre ++ c :: post) (len pre) = Ok [c].
Proof.
  unfold getitem.
  assert (H0 : (0 <= len pre)%Z) by (unfold len; lia).
  destruct (len pre <? 0)%Z eqn:E; [apply Z.ltb_lt in E; lia|].
  rewrite len_app.
  replace ((0 <=? len pre)%Z) with true by (symmetry; apply Z.leb_le; lia).
  replace ((len pre <? len pre + len (c :: post))%Z) with true
    by (symmetry; apply Z.ltb_lt; unfold len; simpl; lia).
  simpl. unfold len. rewrite Nat2Z.id.
  rewrite nth_error_app2 by lia. now rewrite Nat.sub_diag.
Qed.


Lemma getitem_last (pre : str) (x : char) (post : str) :
  getitem ((pre ++ [x]) ++ post) (len (pre ++ [x]) - 1) = Ok [x].
Proof.
  rewrite <- app_assoc. simpl.
  replace (len (pre ++ [x]) - 1)%Z with (len pre).
  - apply getitem_mid.
  - rewrite len_app. unfold len. simpl. lia.
Qed.

Lemma getitem_next (pre : str) (c n : char) (post : str) :
  getitem (pre ++ c :: n :: post) (len pre + 1) = Ok [n].
Proof.
  replace (pre ++ c :: n :: post) with ((pre ++ [c]) ++ n :: post)
    by (rewrite <- app_assoc; reflexivity).
  replace (len pre + 1)%Z with (len (pre ++ [c])).
  - apply getitem_mid.
  - rewrite len_app. unfold len. simpl. lia.
Qed.

Lemma snoc_cases (pre : str) :
  pre = [] \/ exists pre0 x, pre = pre0 ++ [x].
Proof.
  induction pre as [|x pre0 _] using rev_ind; [now left|right; eauto].
Qed.

Lemma last_of_snoc (pre : str) (x : char) : last_of (pre ++ [x]) = Some x.
Proof. unfold last_of. now rewrite rev_app_distr. Qed.

(** The loop, started anywhere in the text, never raises and computes
    [walk]. *)
Lemma convert_loop_walk (suf pre : str) (result : list str) :
  convert_loop (pre ++ suf) (enumerate_from (len pre) suf) result
  = Ok (result ++ walk (Nat.eqb (length pre) 0) (last_of pre) suf).
Proof.
  revert pre result.
  induction suf as [|c suf IH]; intros pre result; simpl.
  - now rewrite app_nil_r.
  - (* prev_char *)
    assert (Hprev :
              (if (len pre >? 0)%Z then getitem (pre ++ c :: suf) (len pre - 1)
               else Ok []) = Ok (as_str (last_of pre))).
    { destruct (snoc_cases pre) as [-> | (pre0 & x & ->)].
      - reflexivity.
      - replace ((len (pre0 ++ [x]) >? 0)%Z) with true.
        + rewrite getitem_last, last_of_snoc. reflexivity.
        + symmetry. apply Z.gtb_lt. rewrite len_app.
          unfold len. simpl. lia. }
    rewrite Hprev. simpl.
    (* next_char *)
    assert (Hnext :
              (if (len pre <? len (pre ++ c :: suf) - 1)%Z
               then getitem (pre ++ c :: suf) (len pre + 1)
               else Ok []) = Ok (as_str (hd_error suf))).
    { destruct suf as [|n suf'].
      - replace ((len pre <? len (pre ++ [c]) - 1)%Z) with false; [reflexivity|].
        symmetry. apply Z.ltb_ge. rewrite len_app. unfold len. simpl. lia.
      - replace ((len pre <? len (pre ++ c :: n :: suf') - 1)%Z) with true.
        + now rewrite getitem_next.
        + symmetry. apply Z.ltb_lt. rewrite len_app. unfold len. simpl. lia. }
    rewrite Hnext. simpl.
    (* is_start *)
    assert (Hstart : (len pre =? 0)%Z = Nat.eqb (length pre) 0).
    { unfold len. destruct pre; reflexivity. }
    rewrite Hstart.
    replace (pre ++ c :: suf) with ((pre ++ [c]) ++ suf)
      by (rewrite <- app_assoc; reflexivity).
    replace (len pre + 1)%Z with (len (pre ++ [c]))
      by (rewrite len_app; unfold len; simpl; lia).
    rewrite IH. rewrite last_of_snoc.
    replace (Nat.eqb (length (pre ++ [c])) 0) with false
      by (rewrite length_app; simpl; destruct (length pre); reflexivity).
    now rewrite <- app_assoc.
Qed.

Lemma convert_eq_walk (text : str) :
  convert_to_smart_quotes text = Ok (join (walk true None text)).
Proof.
  unfold convert_to_smart_quotes, enumerate.
  change (convert_loop text (enumerate_from 0 text) [])
    with (convert_loop ([] ++ text) (enumerate_from (len []) text) []).
  now rewrite convert_loop_walk.
Qed.


(** ** The decision for one character agrees with the rules *)

Lemma opening_context_value :
  _OPENING_CONTEXT
  = map (fun c => [c]) opening_context_set.
Proof. reflexivity. Qed.

Lemma set_mem_context (x : option char) :
  set_mem (as_str x) _OPENING_CONTEXT = in_opening_context x.
Proof.
  rewrite opening_context_value. destruct x as [c|]; [|reflexivity].
  unfold set_mem, in_opening_context, as_str.
  generalize opening_context_set as ks.
  induction ks as [|k ks IH]; [reflexivity|].
  cbn [existsb map]. rewrite IH. simpl. now rewrite andb_true_r.
Qed.

Lemma eqb_single (x : option char) (c : char) :
  Py.eqb (as_str x) [c] = is_char c x.
Proof. destruct x; simpl; [apply andb_true_r|reflexivity]. Qed.

Lemma is_letter_single (x : option char) :
  _is_letter (as_str x) = ascii_letter x.
Proof.
  destruct x as [c|]; [|reflexivity].
  unfold _is_letter, re_match, match_at, _LETTER_REGEX. simpl.
  now destruct ((97 <=? c)%Z && (c <=? 122)%Z || (65 <=? c)%Z && (c <=? 90)%Z).
Qed.

Lemma is_opening_context_rule (prev : option char) (b : bool) (q : char) :
  _is_opening_context (as_str prev) b [q]
  = b || in_opening_context prev || is_char q prev.
Proof.
  unfold _is_opening_context. now rewrite set_mem_context, eqb_single.
Qed.

Lemma convert_char_emit (prev : option char) (cur : char)
      (next : option char) (b : bool) :
  _convert_char [cur] (as_str prev) (as_str next) b = [emit prev cur next b].
Proof.
  unfold _convert_char, emit. simpl Py.eqb.
  rewrite !andb_true_r.
  change (LEFT_SINGLE QUOTES) with [8216%Z].
  change (LEFT_DOUBLE QUOTES) with [8220%Z].
  rewrite !is_opening_context_rule, !is_letter_single.
  destruct (cur =? 34)%Z.
  - now destruct (b || in_opening_context prev || is_char 8216%Z prev).
  - destruct (cur =? 39)%Z; [|reflexivity].
    destruct (ascii_letter prev && ascii_letter next); [reflexivity|].
    now destruct (b || in_opening_context prev || is_char 8220%Z prev).
Qed.

(** the window of [walk] at offset [i] *)
Lemma walk_nth (s : str) (b : bool) (p : option char) (i : nat) :
  nth_error (join (walk b p s)) i
  = option_map
      (fun cur =>
         emit (match i with O => p | S j => nth_error s j end)
              cur (nth_error s (S i))
              (match i with O => b | S _ => false end))
      (nth_error s i).
Proof.
  revert b p i. induction s as [|c s IH]; intros b p i.
  - destruct i; reflexivity.
  - simpl walk. unfold join in *. simpl concat.
    rewrite convert_char_emit. simpl.
    destruct i as [|i]; simpl.
    + now destruct s.
    + rewrite IH. destruct i; reflexivity.
Qed.

(** The Director, position by position. *)
Lemma convert_pointwise (text : str) :
  exists out,
    convert_to_smart_quotes text = Ok out /\
    forall i,
      nth_error out i
      = option_map
          (fun cur => emit (prev_of text i) cur (next_of text i) (is_start_of i))
          (nth_error text i).
Proof.
  exists (join (walk true None text)). split; [apply convert_eq_walk|].
  intros i. rewrite walk_nth. destruct i; reflexivity.
Qed.

Lemma convert_length (text out : str) :
  convert_to_smart_quotes text = Ok out -> length out = length text.
Proof.
  rewrite convert_eq_walk. intros [= <-].
  generalize true, (@None char).
  induction text as [|c s IH]; intros b p; [reflexivity|].
  simpl walk. unfold join in *. simpl concat.
  rewrite convert_char_emit. simpl. now rewrite IH.
Qed.

Lemma emit_not_straight (prev : option char) (cur : char)
      (next : option char) (b : bool) :
  emit prev cur next b <> 34%Z /\ emit prev cur next b <> 39%Z.
Proof.
  unfold emit.
  destruct (cur =? 34)%Z eqn:E1.
  - destruct (b || in_opening_context prev || is_char 8216%Z prev);
      split; discriminate.
  - destruct (cur =? 39)%Z eqn:E2.
    + destruct (ascii_letter prev && ascii_letter next);
        [split; discriminate|].
      destruct (b || in_opening_context prev || is_char 8220%Z prev);
        split; discriminate.
    + apply Z.eqb_neq in E1, E2. now split.
Qed.

Lemma emit_other (prev : option char) (cur : char)
      (next : option char) (b : bool) :
  cur <> 34%Z -> cur <> 39%Z -> emit prev cur next b = cur.
Proof.
  intros H1 H2. unfold emit.
  apply Z.eqb_neq in H1, H2. now rewrite H1, H2.
Qed.


Lemma contains_single (c : char) (s : str) :
  contains [c] s = true <-> In c s.
Proof.
  induction s as [|x s IH]; simpl.
  - split; [discriminate|tauto].
  - rewrite orb_true_iff, IH, andb_true_r, Z.eqb_eq. intuition congruence.
Qed.

Lemma has_straight_quotes_false (text : str) :
  ~ In 34%Z text -> ~ In 39%Z text -> _has_straight_quotes text = false.
Proof.
  intros H1 H2. unfold _has_straight_quotes.
  change (STRAIGHT_DOUBLE QUOTES) with [34%Z].
  change (STRAIGHT_SINGLE QUOTES) with [39%Z].
  apply orb_false_iff. split; apply not_true_is_false;
    rewrite contains_single; assumption.
Qed.

(** Without straight quotes the pass changes nothing. *)
Lemma walk_identity (s : str) (b : bool) (p : option char) :
  ~ In 34%Z s -> ~ In 39%Z s -> join (walk b p s) = s.
Proof.
  revert b p. induction s as [|c s IH]; intros b p H1 H2; [reflexivity|].
  simpl walk. unfold join in *. simpl concat. rewrite convert_char_emit.
  simpl in H1, H2.
  rewrite emit_other by tauto. simpl. f_equal. apply IH; tauto.
Qed.

Lemma convert_identity (text : str) :
  ~ In 34%Z text -> ~ In 39%Z text -> convert_to_smart_quotes text = Ok text.
Proof.
  intros H1 H2. rewrite convert_eq_walk. now rewrite walk_identity.
Qed.

Lemma convert_output_clean (text out : str) :
  convert_to_smart_quotes text = Ok out ->
  ~ In 34%Z out /\ ~ In 39%Z out.
Proof.
  intros H. destruct (convert_pointwise text) as (out' & H' & Hn).
  rewrite H in H'. injection H' as <-.
  split; intros Hin; apply In_nth_error in Hin as [i Hi];
    rewrite Hn in Hi; destruct (nth_error text i) as [c|]; try discriminate;
    simpl in Hi; injection Hi as Hi;
    destruct (emit_not_straight (prev_of text i) c (next_of text i)
                                (is_start_of i)); congruence.
Qed.

End Director.

(* ===================================================================== *)
(** * General facts about the matcher *)
(* ===================================================================== *)

Module ReFacts.
Import Py Re Aux.

Lemma startswith_app (p s : str) : startswith p (p ++ s) = true.
Proof. induction p; simpl; [reflexivity|]. now rewrite Z.eqb_refl. Qed.

Lemma startswith_split (p s : str) :
  startswith p s = true -> s = p ++ skipn (length p) s.
Proof.
  revert s. induction p as [|x p IH]; intros [|y s]; simpl; try discriminate;
    try reflexivity.
  intros H. apply andb_true_iff in H as [H1 H2]. apply Z.eqb_eq in H1.
  subst y. f_equal. now apply IH.
Qed.

Lemma startswith_iff (p s : str) :
  startswith p s = true <-> exists t, s = p ++ t.
Proof.
  split.
  - intros H. eexists. now apply startswith_split.
  - intros [t ->]. apply startswith_app.
Qed.

Lemma startswith_length (p s : str) :
  startswith p s = true -> length p <= length s.
Proof.
  intros H. apply startswith_iff in H as [t ->]. rewrite length_app. lia.
Qed.

(** ** Matching only moves forward in the subject *)

Lemma extends_refl (st : mstate) : extends st st.
Proof. exists 0. simpl. repeat split; lia. Qed.

Lemma extends_trans (a b c : mstate) :
  extends a b -> extends b c -> extends a c.
Proof.
  intros (k & Hk & Hp & Hr) (j & Hj & Hq & Hs).
  rewrite Hr, length_skipn in Hj.
  exists (k + j). repeat split; try lia.
  rewrite Hs, Hr, skipn_skipn. f_equal. lia.
Qed.

Lemma extends_advance (n : nat) (st : mstate) :
  n <= length (rest st) -> extends st (advance n st).
Proof. intros H. exists n. simpl. auto. Qed.

Lemma extends_length (st st' : mstate) :
  extends st st' -> length (rest st') <= length (rest st).
Proof. intros (k & Hk & _ & ->). rewrite length_skipn. lia. Qed.

Lemma iterate_extends (greedy : bool) (step : mstate -> list mstate) :
  (forall st st', In st' (step st) -> extends st st') ->
  forall fuel st st', In st' (iterate greedy step fuel st) -> extends st st'.
Proof.
  intros Hstep. induction fuel as [|fuel IH]; intros st st' Hin; simpl in Hin.
  - destruct Hin as [<-|[]]. apply extends_refl.
  - assert (Hmore :
              In st' (flat_map
                        (fun x => if length (rest x) <? length (rest st)
                                  then iterate greedy step fuel x else [])
                        (step st)) -> extends st st').
    { intros H. apply in_flat_map in H as (mid & Hmid & H).
      destruct (length (rest mid) <? length (rest st)); [|destruct H].
      eapply extends_trans; [apply Hstep, Hmid | apply IH, H]. }
    destruct greedy.
    + apply in_app_or in Hin as [H|[<-|[]]]; [auto | apply extends_refl].
    + destruct Hin as [<-|H]; [apply extends_refl | auto].
Qed.

Lemma run_extends (r : regex) :
  forall st st', In st' (run r st) -> extends st st'.
Proof.
  induction r as [|p| |r1 IH1 r2 IH2|r1 IH1 r2 IH2|g r1 IH1|n r1 IH1|n];
    intros st st' Hin; simpl in Hin.
  - destruct Hin as [<-|[]]. apply extends_refl.
  - destruct (rest st) as [|c s] eqn:E; [destruct Hin|].
    destruct (p c); [|destruct Hin]. destruct Hin as [<-|[]].
    apply extends_advance. rewrite E. simpl. lia.
  - destruct (Nat.eqb (pos st) 0); [|destruct Hin].
    destruct Hin as [<-|[]]. apply extends_refl.
  - apply in_flat_map in Hin as (mid & H1 & H2).
    eapply extends_trans; eauto.
  - apply in_app_or in Hin as [H|H]; auto.
  - eapply iterate_extends; eauto.
  - apply in_map_iff in Hin as (x & <- & Hx).
    destruct (IH1 _ _ Hx) as (k & Hk & Hp & Hr).
    exists k. simpl. auto.
  - destruct (lookup n (groups st)) as [g|]; [|destruct Hin].
    destruct (startswith g (rest st)) eqn:E; [|destruct Hin].
    destruct Hin as [<-|[]]. apply extends_advance.
    now apply startswith_length.
Qed.

(** ** The repetition never runs short of fuel *)

Lemma flat_map_nil {A B : Type} (f : A -> list B) (l : list A) :
  (forall x, In x l -> f x = []) -> flat_map f l = [].
Proof.
  induction l as [|x l IH]; intros H; simpl; [reflexivity|].
  rewrite H by (now left). apply IH. intros y Hy. apply H. now right.
Qed.

Lemma iterate_fuel (greedy : bool) (step : mstate -> list mstate) :
  forall n st fuel,
    length (rest st) <= n -> n <= fuel ->
    iterate greedy step fuel st = iterate greedy step n st.
Proof.
  induction n as [|n IH]; intros st fuel Hlen Hfuel.
  - destruct fuel as [|fuel]; [reflexivity|]. simpl.
    rewrite flat_map_nil; [now destruct greedy|].
    intros x _. replace (length (rest st)) with 0 by lia.
    reflexivity.
  - destruct fuel as [|fuel]; [lia|]. simpl.
    replace (flat_map
               (fun st' => if length (rest st') <? length (rest st)
                           then iterate greedy step fuel st' else [])
               (step st))
      with (flat_map
              (fun st' => if length (rest st') <? length (rest st)
                          then iterate greedy step n st' else [])
              (step st)); [reflexivity|].
    apply flat_map_ext. intros x.
    destruct (length (rest x) <? length (rest st)) eqn:E; [|reflexivity].
    apply Nat.ltb_lt in E. symmetry. apply IH; lia.
Qed.

(** More fuel than the characters left changes nothing: the bound that
    [run] passes is exact. *)
Lemma iterate_enough (greedy : bool) (step : mstate -> list mstate)
      (st : mstate) (extra : nat) :
  iterate greedy step (length (rest st) + extra) st
  = iterate greedy step (length (rest st)) st.
Proof. apply iterate_fuel; lia. Qed.

(** ** Searching *)

Lemma match_at_extends (r : regex) (i : nat) (s : str) (ma : bool)
      (st' : mstate) :
  match_at r i s ma = Some st' ->
  extends {| pos := i; rest := s; groups := [] |} st' /\
  (ma = true -> i < pos st').
Proof.
  unfold match_at. intros H. apply find_some in H as [Hin Hc].
  split; [now apply run_extends in Hin|].
  intros ->. simpl in Hc. now apply Nat.ltb_lt in Hc.
Qed.

Lemma search_split (r : regex) :
  forall s i ma pre m post,
    search r i s ma = Some (pre, m, post) ->
    s = pre ++ m ++ post /\
    (ma = true -> pre = [] -> m <> []).
Proof.
  induction s as [|c s IH]; intros i ma pre m post H; simpl in H.
  - destruct (match_at r i [] ma) as [st'|] eqn:E; [|discriminate].
    injection H as <- <- <-.
    apply match_at_extends in E as [(k & Hk & Hp & Hr) Hma]. simpl in *.
    assert (k = 0) by lia. subst k.
    split.
    + rewrite Hr. now destruct (pos st' - i).
    + intros Hm _. specialize (Hma Hm). lia.
  - destruct (match_at r i (c :: s) ma) as [st'|] eqn:E.
    + injection H as <- <- <-.
      apply match_at_extends in E as [(k & Hk & Hp & Hr) Hma]. simpl in *.
      replace (pos st' - i) with k by lia.
      split.
      * rewrite Hr. simpl. now rewrite firstn_skipn.
      * intros Hm _ Hnil. specialize (Hma Hm).
        assert (k = 0); [|lia].
        destruct k; [reflexivity|discriminate].
    + destruct (search r (S i) s false) as [[[pre' m'] post']|] eqn:E';
        [|discriminate].
      injection H as <- <- <-.
      apply IH in E' as [-> _]. split; [reflexivity|discriminate].
Qed.

(** ** [re.sub] never runs short of fuel *)

Section SubFuel.
Variable A : Type.
Variable r : regex.
Variable repl : str -> A -> str * A.

Lemma sub_loop_fuel :
  forall n f1 f2 i s ma acc,
    measure s ma <= n -> n <= f1 -> n <= f2 ->
    sub_loop r repl f1 i s ma acc = sub_loop r repl f2 i s ma acc.
Proof.
  induction n as [|n IH]; intros f1 f2 i s ma acc Hm H1 H2.
  - unfold measure in Hm. destruct ma; lia.
  - destruct f1 as [|f1]; [lia|]. destruct f2 as [|f2]; [lia|].
    simpl.
    destruct (search r i s ma) as [[[pre m] post]|] eqn:E; [|reflexivity].
    destruct (repl m acc) as [item acc1].
    apply search_split in E as [-> Hne].
    rewrite (IH f1 f2); [reflexivity| |lia|lia].
    unfold measure in *. rewrite !length_app in Hm.
    destruct m as [|x m]; simpl in *.
    + destruct ma; [|lia].
      destruct pre; [now specialize (Hne eq_refl eq_refl)|simpl in *; lia].
    + destruct ma; lia.
Qed.

(** Any fuel above the one [sub] passes gives the result of [sub]. *)
Lemma sub_enough (text : str) (acc : A) (extra : nat) :
  sub_loop r repl (2 * length text + 2 + extra) 0 text false acc
  = sub r repl text acc.
Proof.
  unfold sub. apply sub_loop_fuel with (n := 2 * length text + 2);
    unfold measure; lia.
Qed.
End SubFuel.

End ReFacts.

(* ===================================================================== *)
(** * What the three patterns match *)
(* ===================================================================== *)

Module Patterns.
Import Py Re core Aux ReFacts.

(** ** States reached by skipping characters *)

Lemma advance_0 (st : mstate) : advance 0 st = st.
Proof. destruct st. unfold advance. simpl. now rewrite Nat.add_0_r. Qed.

Lemma advance_advance (a b : nat) (st : mstate) :
  advance a (advance b st) = advance (b + a) st.
Proof.
  unfold advance. simpl. rewrite skipn_skipn. f_equal; [lia|f_equal; lia].
Qed.

Lemma find_all {A : Type} (P : A -> bool) (l : list A) :
  (forall x, In x l -> P x = true) -> find P l = hd_error l.
Proof.
  destruct l as [|x l]; intros H; simpl; [reflexivity|].
  now rewrite H by (now left).
Qed.

Lemma flat_map_filter {A B : Type} (Q : A -> bool) (f : A -> B) (l : list A) :
  flat_map (fun k => if Q k then [f k] else []) l = map f (filter Q l).
Proof.
  induction l as [|x l IH]; simpl; [reflexivity|].
  rewrite IH. now destruct (Q x).
Qed.

Lemma hd_filter {A : Type} (Q : A -> bool) (l : list A) :
  hd_error (filter Q l) = find Q l.
Proof.
  induction l as [|x l IH]; simpl; [reflexivity|]. now destruct (Q x).
Qed.

Lemma hd_map {A B : Type} (f : A -> B) (l : list A) :
  hd_error (map f l) = option_map f (hd_error l).
Proof. now destruct l. Qed.

(** ** Literal characters and runs of them *)

Lemma run_chr (c : char) (st : mstate) :
  run (Chr c) st = if startswith [c] (rest st) then [advance 1 st] else [].
Proof.
  simpl. destruct (rest st) as [|x s]; [reflexivity|].
  simpl. now rewrite andb_true_r.
Qed.

Lemma run_times_chr (c : char) (n : nat) :
  forall st,
    run (Times n (Chr c)) st
    = if startswith (repeat c n) (rest st) then [advance n st] else [].
Proof.
  induction n as [|n IH]; intros st.
  - simpl. now rewrite advance_0.
  - cbn [Times run repeat]. fold (Chr c). rewrite run_chr.
    destruct (rest st) as [|x s] eqn:E; [reflexivity|].
    simpl startswith. rewrite andb_true_r.
    destruct (c =? x)%Z; [|reflexivity].
    simpl. rewrite app_nil_r, IH. simpl. rewrite E. simpl.
    destruct (startswith (repeat c n) s); [|reflexivity].
    now rewrite advance_advance.
Qed.

(** ** The lazy [[\s\S]*?]: every offset, nearest first *)

Lemma any_char (c : char) : is_space c || negb (is_space c) = true.
Proof. apply orb_negb_r. Qed.

Lemma run_any (st : mstate) :
  run SpaceOrNot st
  = match rest st with [] => [] | _ :: _ => [advance 1 st] end.
Proof.
  simpl. destruct (rest st) as [|c s]; [reflexivity|]. now rewrite any_char.
Qed.

Lemma iterate_lazy_all (step : mstate -> list mstate) :
  (forall st, step st
              = match rest st with [] => [] | _ :: _ => [advance 1 st] end) ->
  forall s st,
    rest st = s ->
    iterate false step (length s) st
    = map (fun k => advance k st) (seq 0 (S (length s))).
Proof.
  intros Hstep. induction s as [|c s IH]; intros st E.
  - simpl. now rewrite advance_0.
  - cbn [length iterate]. rewrite Hstep, E.
    cbn [flat_map]. rewrite app_nil_r.
    assert (E1 : rest (advance 1 st) = s) by (simpl; now rewrite E).
    rewrite E1.
    replace (length s <? length (c :: s)) with true
      by (symmetry; apply Nat.ltb_lt; simpl; lia).
    rewrite (IH _ E1).
    change (seq 0 (S (S (length s)))) with (0 :: seq 1 (S (length s))).
    cbn [map]. rewrite advance_0. f_equal.
    rewrite <- seq_shift, map_map.
    apply map_ext. intros k. apply advance_advance.
Qed.

Lemma run_lazy_any (st : mstate) :
  run (Star false SpaceOrNot) st
  = map (fun k => advance k st) (seq 0 (S (length (rest st)))).
Proof.
  cbn [run]. fold SpaceOrNot. apply iterate_lazy_all; [apply run_any|reflexivity].
Qed.

(** A lazy skip followed by [r]: the continuations of [r] at every
    offset, nearest first. *)
Lemma run_lazy_then (r : regex) (st : mstate) :
  run (Seq (Star false SpaceOrNot) r) st
  = flat_map (fun k => run r (advance k st)) (seq 0 (S (length (rest st)))).
Proof.
  change (run (Seq (Star false SpaceOrNot) r) st)
    with (flat_map (run r) (run (Star false SpaceOrNot) st)).
  rewrite run_lazy_any.
  rewrite flat_map_concat_map, map_map, <- flat_map_concat_map.
  reflexivity.
Qed.


(** ** First occurrences *)

Lemma find_map {A B : Type} (P : B -> bool) (f : A -> B) (l : list A) :
  find P (map f l) = option_map f (find (fun x => P (f x)) l).
Proof.
  induction l as [|x l IH]; simpl; [reflexivity|].
  now destruct (P (f x)).
Qed.

Lemma find_closer (d : str) :
  forall s,
    find (fun k => startswith d (skipn k s)) (seq 0 (S (length s)))
    = index_of d s.
Proof.
  induction s as [|c s IH].
  - simpl. now destruct (startswith d []).
  - change (seq 0 (S (length (c :: s)))) with (0 :: seq 1 (S (length s))).
    cbn [find index_of skipn].
    destruct (startswith d (c :: s)); [reflexivity|].
    rewrite <- seq_shift, find_map. cbn [skipn]. now rewrite IH.
Qed.

Lemma index_of_some (d : str) :
  forall s k,
    index_of d s = Some k ->
    s = firstn k s ++ d ++ skipn (k + length d) s /\
    k + length d <= length s /\
    forall j, j < k -> startswith d (skipn j s) = false.
Proof.
  induction s as [|c s IH]; intros k H; simpl in H.
  - destruct (startswith d []) eqn:E; [|discriminate].
    injection H as <-. simpl.
    repeat split; [now apply startswith_split|
                   now apply startswith_length in E|lia].
  - destruct (startswith d (c :: s)) eqn:E.
    + injection H as <-. simpl firstn. simpl app.
      repeat split; [now apply startswith_split|
                     now apply startswith_length in E|lia].
    + destruct (index_of d s) as [k'|] eqn:E'; [|discriminate].
      injection H as <-.
      destruct (IH _ eq_refl) as (H1 & H2 & H3).
      repeat split.
      * simpl. f_equal. exact H1.
      * simpl. lia.
      * intros [|j] Hj; [exact E|]. simpl. apply H3. lia.
Qed.

Lemma index_of_none (d : str) :
  forall s, index_of d s = None <-> contains d s = false.
Proof.
  induction s as [|c s IH]; simpl.
  - destruct (startswith d []); split; congruence.
  - destruct (startswith d (c :: s)); simpl; [split; congruence|].
    rewrite <- IH. destruct (index_of d s); simpl; split; congruence.
Qed.

(** ** The fenced pattern *)

Lemma run_FENCED (st : mstate) :
  run FENCED st
  = if startswith bt3 (rest st)
    then map (fun k => advance (3 + (k + 3)) st)
             (filter (fun k => startswith bt3 (skipn k (skipn 3 (rest st))))
                     (seq 0 (S (length (skipn 3 (rest st))))))
    else [].
Proof.
  unfold FENCED, backtick.
  change (run (Seq (Times 3 (Chr 96%Z)) ?r) st)
    with (flat_map (run r) (run (Times 3 (Chr 96%Z)) st)).
  rewrite run_times_chr. change (repeat 96%Z 3) with bt3.
  destruct (startswith bt3 (rest st)); [|reflexivity].
  cbn [flat_map]. rewrite app_nil_r, run_lazy_then.
  rewrite <- flat_map_filter. apply flat_map_ext. intros k.
  rewrite run_times_chr. change (repeat 96%Z 3) with bt3.
  cbn [rest advance].
  destruct (startswith bt3 (skipn k (skipn 3 (rest st)))); [|reflexivity].
  now rewrite !advance_advance.
Qed.

(** The fenced pattern matches at the head of [s] when [s] begins with
    a fence that recurs later; the match ends with the first
    recurrence. *)
Lemma match_at_FENCED (i : nat) (s : str) (ma : bool) :
  match_at FENCED i s ma
  = if startswith bt3 s
    then option_map
           (fun k => {| pos := i + (3 + (k + 3));
                        rest := skipn (3 + (k + 3)) s;
                        groups := [] |})
           (index_of bt3 (skipn 3 s))
    else None.
Proof.
  unfold match_at. rewrite run_FENCED. cbn [rest].
  destruct (startswith bt3 s); [|reflexivity].
  rewrite find_all.
  - rewrite hd_map, hd_filter, find_closer. reflexivity.
  - intros x Hx. apply in_map_iff in Hx as (k & <- & _).
    cbn [pos advance]. replace (i <? i + (3 + (k + 3))) with true
      by (symmetry; apply Nat.ltb_lt; lia).
    apply orb_true_r.
Qed.


(** ** The greedy run of a character: longest first *)

Lemma down_S (m : nat) : down (S m) = map S (down m ++ [0]).
Proof.
  induction m as [|m IH]; [reflexivity|].
  change (S (S m) :: down (S m) = S (S m) :: map S (down m ++ [0])).
  f_equal. exact IH.
Qed.

Lemma in_down (m n : nat) : In n (down m) <-> 1 <= n <= m.
Proof.
  induction m as [|m IH]; simpl; [lia|]. rewrite IH. lia.
Qed.

Lemma iterate_greedy_chr (step : mstate -> list mstate) (c : char) :
  (forall st, step st
              = if startswith [c] (rest st) then [advance 1 st] else []) ->
  forall s st,
    rest st = s ->
    iterate true step (length s) st
    = map (fun k => advance k st) (down (run_len c s) ++ [0]).
Proof.
  intros Hstep. induction s as [|x s IH]; intros st E.
  - simpl. now rewrite advance_0.
  - cbn [length iterate]. rewrite Hstep, E.
    cbn [startswith run_len]. rewrite andb_true_r.
    destruct (c =? x)%Z.
    + cbn [flat_map]. rewrite app_nil_r.
      assert (E1 : rest (advance 1 st) = s) by (simpl; now rewrite E).
      rewrite E1.
      replace (length s <? length (x :: s)) with true
        by (symmetry; apply Nat.ltb_lt; simpl; lia).
      rewrite (IH _ E1), down_S.
      rewrite (map_app _ (map S _) [0]), map_map. cbn [map].
      rewrite advance_0. f_equal.
      apply map_ext. intros k. apply advance_advance.
    + simpl. now rewrite advance_0.
Qed.

Lemma run_greedy_chr (c : char) (st : mstate) :
  run (Star true (Chr c)) st
  = map (fun k => advance k st) (down (run_len c (rest st)) ++ [0]).
Proof.
  cbn [run]. fold (Chr c).
  apply iterate_greedy_chr; [apply run_chr|reflexivity].
Qed.

Lemma run_plus_chr (c : char) (st : mstate) :
  run (Plus true (Chr c)) st
  = map (fun n => advance n st) (down (run_len c (rest st))).
Proof.
  unfold Plus.
  change (run (Seq (Chr c) ?r) st) with (flat_map (run r) (run (Chr c) st)).
  rewrite run_chr.
  destruct (rest st) as [|x s] eqn:E; [reflexivity|].
  cbn [startswith run_len]. rewrite andb_true_r.
  destruct (c =? x)%Z; [|reflexivity].
  cbn [flat_map]. rewrite app_nil_r, run_greedy_chr.
  cbn [rest advance]. rewrite E. cbn [skipn].
  rewrite down_S, map_map.
  apply map_ext. intros k. apply advance_advance.
Qed.

Lemma firstn_run (c : char) :
  forall s n, n <= run_len c s -> firstn n s = repeat c n.
Proof.
  induction s as [|x s IH]; intros n H; simpl in H.
  - now replace n with 0 by lia.
  - destruct (c =? x)%Z eqn:E.
    + destruct n as [|n]; [reflexivity|]. simpl.
      apply Z.eqb_eq in E. subst x. f_equal. apply IH. lia.
    + now replace n with 0 by lia.
Qed.

Lemma run_startswith (c : char) (s : str) (n : nat) :
  n <= run_len c s -> startswith (repeat c n) s = true.
Proof.
  intros H. apply startswith_iff. exists (skipn n s).
  rewrite <- (firstn_run c s H). symmetry. apply firstn_skipn.
Qed.

(** ** The inline pattern *)

(** the state after an opener of [n] backticks *)
Lemma opener_state (st : mstate) (n : nat) :
  n <= run_len bt (rest st) ->
  set_group 1 st (advance n st)
  = {| pos := pos st + n; rest := skipn n (rest st);
       groups := (1, repeat bt n) :: groups st |}.
Proof.
  intros H. unfold set_group, consumed, advance. cbn [pos rest groups].
  replace (pos st + n - pos st) with n by lia.
  now rewrite (firstn_run bt _ H).
Qed.

(** the closings of an opener of [n] backticks, nearest first *)
Lemma run_closing (st : mstate) (n : nat) (g : list (nat * str)) :
  let st1 := {| pos := pos st + n; rest := skipn n (rest st);
                groups := (1, repeat bt n) :: g |} in
  run (Seq (Star false SpaceOrNot) (Backref 1)) st1
  = map (fun k => {| pos := pos st + (n + (k + n));
                     rest := skipn (n + (k + n)) (rest st);
                     groups := (1, repeat bt n) :: g |})
        (filter (fun k => startswith (repeat bt n) (skipn k (skipn n (rest st))))
                (seq 0 (S (length (skipn n (rest st)))))).
Proof.
  intros st1. rewrite run_lazy_then. subst st1. cbn [rest].
  rewrite <- flat_map_filter. apply flat_map_ext. intros k.
  cbn [run advance groups rest lookup Nat.eqb].
  destruct (startswith (repeat bt n) (skipn k (skipn n (rest st))));
    [|reflexivity].
  unfold advance. cbn [pos rest groups]. rewrite repeat_length.
  rewrite !skipn_skipn. f_equal. f_equal; [lia|f_equal; lia].
Qed.

Lemma find_flat_map_first {A B : Type} (P : B -> bool) (f : A -> list B)
      (x : A) (l : list A) :
  find P (flat_map f (x :: l))
  = match find P (f x) with
    | Some y => Some y
    | None => find P (flat_map f l)
    end.
Proof.
  cbn [flat_map].
  induction (f x) as [|y ys IH]; simpl; [reflexivity|].
  now destruct (P y).
Qed.

(** The inline pattern matches at the head of [s] with the longest
    opener that recurs after itself, up to its first recurrence. *)
Lemma match_at_INLINE (i : nat) (s : str) (ma : bool) :
  match_at INLINE i s ma
  = option_map
      (fun nk => {| pos := i + (fst nk + (snd nk + fst nk));
                    rest := skipn (fst nk + (snd nk + fst nk)) s;
                    groups := [(1, repeat bt (fst nk))] |})
      (inline_match s).
Proof.
  unfold match_at, INLINE, backtick, inline_match.
  set (st := {| pos := i; rest := s; groups := [] |}).
  change (run (Seq (Group 1 (Plus true (Chr 96%Z))) ?r) st)
    with (flat_map (run r) (map (set_group 1 st) (run (Plus true (Chr 96%Z)) st))).
  rewrite run_plus_chr, map_map. cbn [rest st]. fold bt.
  assert (Hns : forall n, In n (down (run_len bt s)) ->
                          1 <= n <= run_len bt s) by (intros n; apply in_down).
  revert Hns. generalize (down (run_len bt s)) as ns.
  induction ns as [|n ns IH]; intros Hns; [reflexivity|].
  cbn [map]. rewrite find_flat_map_first.
  assert (Hn : 1 <= n <= run_len bt s) by (apply Hns; now left).
  rewrite opener_state by (cbn [rest st]; lia).
  rewrite (run_closing st n (groups st)). cbn [pos rest groups st].
  rewrite find_all.
  - rewrite hd_map, hd_filter, find_closer. cbn [inline_span_at].
    destruct (index_of (repeat bt n) (skipn n s)) as [k|]; [reflexivity|].
    cbn [option_map]. apply IH. intros m Hm. apply Hns. now right.
  - intros x Hx. apply in_map_iff in Hx as (k & <- & _). cbn [pos].
    replace (i <? i + (n + (k + n))) with true
      by (symmetry; apply Nat.ltb_lt; lia).
    apply orb_true_r.
Qed.

End Patterns.

(* ===================================================================== *)
(** * The Markdown Shield: the extraction passes *)
(* ===================================================================== *)

Module Shield.
Import Py Re core Aux ReFacts Patterns.

(** ** What a successful search tells *)

Lemma search_some (r : regex) :
  forall s i ma pre m post,
    search r i s ma = Some (pre, m, post) ->
    s = pre ++ m ++ post /\
    (exists j ma' st',
        match_at r j (m ++ post) ma' = Some st' /\
        m = firstn (pos st' - j) (m ++ post) /\ post = rest st') /\
    (forall pre1 pre2,
        pre = pre1 ++ pre2 -> pre2 <> [] ->
        exists j ma', match_at r j (pre2 ++ m ++ post) ma' = None).
Proof.
  induction s as [|c s IH]; intros i ma pre m post H.
  - assert (Hs := search_split _ _ _ _ H). destruct Hs as [Hs _].
    simpl in H.
    destruct (match_at r i [] ma) as [st'|] eqn:E; [|discriminate].
    injection H as <- <- <-. simpl in Hs.
    split; [exact Hs|]. split.
    + exists i, ma, st'. rewrite <- Hs. repeat split; assumption.
    + intros pre1 pre2 Hp Hne. destruct pre1, pre2; try discriminate.
      now contradiction Hne.
  - assert (Hs := search_split _ _ _ _ H). destruct Hs as [Hs _].
    simpl in H.
    destruct (match_at r i (c :: s) ma) as [st'|] eqn:E.
    + injection H as <- <- <-. simpl in Hs.
      split; [exact Hs|]. split.
      * exists i, ma, st'. rewrite <- Hs. repeat split; assumption.
      * intros pre1 pre2 Hp Hne. destruct pre1, pre2; try discriminate.
        now contradiction Hne.
    + destruct (search r (S i) s false) as [[[pre' m'] post']|] eqn:E';
        [|discriminate].
      injection H as <- <- <-.
      destruct (IH _ _ _ _ _ E') as (Hs' & Hm & Hpre).
      split; [exact Hs|]. split; [exact Hm|].
      intros pre1 pre2 Hp Hne.
      destruct pre1 as [|x pre1].
      * simpl in Hp. subst pre2. exists i, ma.
        simpl. rewrite <- Hs'. exact E.
      * injection Hp as -> Hp. now apply Hpre with (pre1 := pre1).
Qed.

Lemma search_none (r : regex) :
  forall s i ma,
    search r i s ma = None ->
    match_at r i s ma = None /\
    match s with
    | [] => True
    | _ :: s' => search r (S i) s' false = None
    end.
Proof.
  intros [|c s] i ma H; simpl in H;
    destruct (match_at r i _ ma); try discriminate; split; auto.
  now destruct (search r (S i) s false) as [[[? ?] ?]|].
Qed.

Lemma search_measure (r : regex) (i : nat) (s : str) (ma : bool)
      (pre m post : str) :
  search r i s ma = Some (pre, m, post) ->
  measure post (Nat.eqb (length m) 0) < measure s ma.
Proof.
  intros H. apply search_split in H as [-> Hne].
  unfold measure. rewrite !length_app.
  destruct m as [|x m]; simpl.
  - destruct ma; [|lia].
    destruct pre; [now specialize (Hne eq_refl eq_refl)|simpl; lia].
  - destruct ma; lia.
Qed.

(** A text in which the pattern matches nowhere is left as it is. *)
Lemma sub_no_match (A : Type) (r : regex) (repl : str -> A -> str * A)
      (text : str) (acc : A) :
  search r 0 text false = None -> sub r repl text acc = (text, acc).
Proof.
  intros H. unfold sub.
  replace (2 * length text + 2) with (S (2 * length text + 1)) by lia.
  simpl. now rewrite H.
Qed.


(** ** Placeholders *)

Lemma digits_of_uint (u : Decimal.uint) :
  Forall (fun c => (48 <= c <= 57)%Z) (lit (NilEmpty.string_of_uint u)).
Proof.
  induction u; simpl; try constructor; try assumption;
    vm_compute; split; discriminate.
Qed.

Lemma format_int_digits (n : nat) :
  Forall (fun c => (48 <= c <= 57)%Z) (format_int n).
Proof.
  unfold format_int, NilZero.string_of_uint.
  destruct (Nat.to_uint n) eqn:E; try apply digits_of_uint.
  repeat constructor; vm_compute; discriminate.
Qed.

Lemma placeholder_chars (group0 : str) (l : locals) :
  Forall (fun c => c <> bt) (fst (create_placeholder group0 l)).
Proof.
  unfold create_placeholder. cbn [fst].
  apply Forall_app. split; [|apply Forall_app; split].
  - vm_compute. repeat constructor; discriminate.
  - eapply Forall_impl; [|apply format_int_digits].
    intros c H E. rewrite E in H. unfold bt in H. lia.
  - vm_compute. repeat constructor; discriminate.
Qed.

Lemma placeholder_head (group0 : str) (l : locals) :
  exists p, fst (create_placeholder group0 l) = 60%Z :: p.
Proof. unfold create_placeholder. cbn [fst]. eexists. reflexivity. Qed.

(** ** Fences *)

Lemma contains_app_r (d u v : str) :
  contains d v = true -> contains d (u ++ v) = true.
Proof.
  intros H. induction u as [|x u IH]; [exact H|].
  simpl. rewrite IH. apply orb_true_r.
Qed.

Lemma skipn_app_suffix {A : Type} (a : list A) :
  forall n t, exists u, skipn n (a ++ t) = u ++ skipn n t.
Proof.
  induction a as [|x a IH]; intros n t.
  - now exists [].
  - destruct n as [|n].
    + now exists (x :: a).
    + destruct (IH n t) as [u Hu]. simpl. rewrite Hu.
      exists (u ++ firstn 1 (skipn n t)).
      rewrite <- app_assoc. f_equal.
      rewrite <- (firstn_skipn 1 (skipn n t)) at 1.
      f_equal. rewrite skipn_skipn. reflexivity.
Qed.

Lemma match_at_FENCED_none (i : nat) (s : str) (ma : bool) :
  match_at FENCED i s ma = None <-> fenced_at s = false.
Proof.
  rewrite match_at_FENCED. unfold fenced_at.
  destruct (startswith bt3 s); cbn [andb]; [|tauto].
  rewrite <- index_of_none.
  destruct (index_of bt3 (skipn 3 s)); cbn [option_map]; split; congruence.
Qed.

Lemma search_FENCED_none :
  forall s i ma, search FENCED i s ma = None <-> has_fence s = false.
Proof.
  induction s as [|c s IH]; intros i ma; cbn [search has_fence].
  - rewrite orb_false_r, <- (match_at_FENCED_none i [] ma).
    destruct (match_at FENCED i [] ma); split; congruence.
  - rewrite orb_false_iff, <- (match_at_FENCED_none i (c :: s) ma).
    rewrite <- (IH (S i) false).
    destruct (match_at FENCED i (c :: s) ma).
    + split; [discriminate|intros [? _]; discriminate].
    + destruct (search FENCED (S i) s false) as [[[? ?] ?]|];
        split; try tauto; try discriminate.
      intros [_ ?]; discriminate.
Qed.

(** Before the fence that is matched no fence begins, and none could be
    completed by a later one. *)
Lemma fence_not_before (pre2 t : str) :
  fenced_at t = true ->
  fenced_at (pre2 ++ t) = false ->
  startswith bt3 (pre2 ++ t) = false.
Proof.
  unfold fenced_at. intros Ht H.
  apply andb_true_iff in Ht as [_ Ht].
  apply andb_false_iff in H as [H|H]; [exact H|].
  destruct (skipn_app_suffix pre2 3 t) as [u Hu].
  rewrite Hu, contains_app_r in H by exact Ht. discriminate.
Qed.

Lemma startswith_bt3_swap (pre2 a b : str) (p : char) :
  pre2 <> [] -> p <> bt ->
  startswith bt3 (pre2 ++ a) = false ->
  startswith bt3 (pre2 ++ p :: b) = false.
Proof.
  intros Hne Hp H.
  assert (Hp' : (96 =? p)%Z = false)
    by (apply Z.eqb_neq; unfold bt in Hp; congruence).
  destruct pre2 as [|x [|y [|z pre2]]]; [contradiction| | |exact H];
    unfold bt3, bt; cbn [startswith app]; rewrite Hp';
    now rewrite ?andb_false_r.
Qed.

Lemma has_fence_app (a b : str) :
  (forall a1 a2, a = a1 ++ a2 -> a2 <> [] -> startswith bt3 (a2 ++ b) = false) ->
  has_fence b = false ->
  has_fence (a ++ b) = false.
Proof.
  intros Ha Hb. induction a as [|x a IH]; [exact Hb|].
  change (has_fence ((x :: a) ++ b))
    with (fenced_at ((x :: a) ++ b) || has_fence (a ++ b)).
  apply orb_false_iff. split.
  - unfold fenced_at. rewrite (Ha [] (x :: a)) by (reflexivity || discriminate).
    reflexivity.
  - apply IH. intros a1 a2 E Hne. apply (Ha (x :: a1) a2); [|exact Hne].
    now rewrite E.
Qed.

Lemma Forall_suffix {A : Type} (P : A -> Prop) (a1 a2 : list A) :
  Forall P (a1 ++ a2) -> Forall P a2.
Proof. intros H. now apply Forall_app in H. Qed.

(** After the fenced pass no fence with a closing fence is left. *)
Lemma fenced_loop_clean :
  forall fuel i s ma l,
    measure s ma <= fuel ->
    has_fence (fst (sub_loop FENCED create_placeholder fuel i s ma l)) = false.
Proof.
  induction fuel as [|fuel IH]; intros i s ma l Hm.
  - unfold measure in Hm. destruct ma; lia.
  - cbn [sub_loop].
    destruct (search FENCED i s ma) as [[[pre m] post]|] eqn:E.
    + assert (Hdec := search_measure _ _ _ _ E).
      destruct (search_some _ _ _ _ E) as (_ & (j & ma' & st' & Hmatch & _) & Hpre).
      assert (Hfence : fenced_at (m ++ post) = true).
      { destruct (fenced_at (m ++ post)) eqn:F; [reflexivity|].
        apply (match_at_FENCED_none j _ ma') in F. congruence. }
      destruct (create_placeholder m l) as [item l1] eqn:Ecp.
      assert (Hchars := placeholder_chars m l).
      destruct (placeholder_head m l) as [p Hp].
      rewrite Ecp in Hchars, Hp. cbn [fst] in Hchars, Hp.
      specialize (IH (i + length pre + length m) post
                     (Nat.eqb (length m) 0) l1).
      destruct (sub_loop FENCED create_placeholder fuel
                         (i + length pre + length m) post
                         (Nat.eqb (length m) 0) l1) as [tail l2].
      cbn [fst] in *.
      apply has_fence_app; [|apply has_fence_app; [|apply IH; lia]].
      * intros a1 a2 Ea Hne. subst item. cbn [app].
        apply startswith_bt3_swap with (a := m ++ post);
          [exact Hne|discriminate|].
        apply fence_not_before; [exact Hfence|].
        destruct (Hpre a1 a2 Ea Hne) as (j' & ma'' & Hnone).
        now apply match_at_FENCED_none in Hnone.
      * intros a1 a2 Ea Hne. rewrite Ea in Hchars.
        apply Forall_suffix in Hchars.
        destruct a2 as [|x a2]; [contradiction|].
        apply Forall_inv in Hchars. unfold bt in Hchars.
        unfold bt3, bt. cbn [startswith app].
        replace (96 =? x)%Z with false
          by (symmetry; apply Z.eqb_neq; congruence).
        reflexivity.
    + cbn [fst]. now apply search_FENCED_none in E.
Qed.

Lemma fenced_pass_clean (text : str) (l : locals) :
  search FENCED 0 (fst (sub FENCED create_placeholder text l)) false = None.
Proof.
  apply search_FENCED_none. apply fenced_loop_clean.
  unfold measure. lia.
Qed.


(** ** Inline spans *)

Lemma inline_span_at_some (s : str) :
  forall ns n k,
    inline_span_at s ns = Some (n, k) ->
    In n ns /\ index_of (repeat bt n) (skipn n s) = Some k.
Proof.
  induction ns as [|x ns IH]; intros n k H; simpl in H; [discriminate|].
  destruct (index_of (repeat bt x) (skipn x s)) as [k'|] eqn:E.
  - injection H as <- <-. split; [now left|exact E].
  - destruct (IH _ _ H) as [H1 H2]. split; [now right|exact H2].
Qed.

Lemma inline_span_at_none (s : str) :
  forall ns,
    inline_span_at s ns = None
    <-> existsb (fun n => contains (repeat bt n) (skipn n s)) ns = false.
Proof.
  induction ns as [|x ns IH]; simpl; [tauto|].
  rewrite orb_false_iff, <- IH, <- index_of_none.
  destruct (index_of (repeat bt x) (skipn x s)); split;
    try tauto; try discriminate.
  intros [? _]; discriminate.
Qed.

Lemma match_at_INLINE_none (i : nat) (s : str) (ma : bool) :
  match_at INLINE i s ma = None <-> inline_at s = false.
Proof.
  rewrite match_at_INLINE. unfold inline_at, inline_match.
  rewrite <- inline_span_at_none.
  destruct (inline_span_at s (down (run_len bt s))); cbn [option_map];
    split; congruence.
Qed.

Lemma search_INLINE_none :
  forall s i ma, search INLINE i s ma = None <-> has_inline s = false.
Proof.
  induction s as [|c s IH]; intros i ma; cbn [search has_inline].
  - rewrite orb_false_r, <- (match_at_INLINE_none i [] ma).
    destruct (match_at INLINE i [] ma); split; congruence.
  - rewrite orb_false_iff, <- (match_at_INLINE_none i (c :: s) ma).
    rewrite <- (IH (S i) false).
    destruct (match_at INLINE i (c :: s) ma).
    + split; [discriminate|intros [? _]; discriminate].
    + destruct (search INLINE (S i) s false) as [[[? ?] ?]|];
        split; try tauto; try discriminate.
      intros [_ ?]; discriminate.
Qed.

Lemma startswith_app_l (d x y : str) :
  startswith d x = true -> startswith d (x ++ y) = true.
Proof.
  intros H. apply startswith_iff in H as [t ->].
  rewrite <- app_assoc. apply startswith_app.
Qed.

(** What a match of the inline pattern at the head of [s] looks like:
    an opener of [n] backticks kept in group 1, a content [c], and the
    first [n] backticks after the opener. *)
Lemma match_at_INLINE_some (i : nat) (s : str) (ma : bool) (st' : mstate) :
  match_at INLINE i s ma = Some st' ->
  exists n c,
    1 <= n /\
    lookup 1 (groups st') = Some (repeat bt n) /\
    s = repeat bt n ++ c ++ repeat bt n ++ rest st' /\
    pos st' = i + (n + (length c + n)) /\
    forall j, j < length c ->
              startswith (repeat bt n)
                         (skipn j (c ++ repeat bt n ++ rest st')) = false.
Proof.
  rewrite match_at_INLINE.
  destruct (inline_match s) as [[n k]|] eqn:E; [|discriminate].
  cbn [option_map fst snd]. intros [= <-]. cbn [pos rest groups lookup Nat.eqb].
  apply inline_span_at_some in E as [Hn Hk].
  apply in_down in Hn.
  apply index_of_some in Hk as (Hsplit & Hlen & Hmin).
  rewrite repeat_length in Hsplit, Hlen.
  rewrite length_skipn in Hlen.
  exists n, (firstn k (skipn n s)).
  assert (Hc : length (firstn k (skipn n s)) = k)
    by (rewrite length_firstn, length_skipn; lia).
  assert (Hrest : skipn (n + (k + n)) s = skipn (k + n) (skipn n s))
    by (rewrite skipn_skipn; f_equal; lia).
  rewrite Hc, Hrest. repeat split.
  - lia.
  - rewrite <- Hsplit. rewrite <- (firstn_run bt s (n := n)) by lia.
    symmetry. apply firstn_skipn.
  - intros j Hj. rewrite <- Hsplit. now apply Hmin.
Qed.

(** The text a search of the inline pattern reports has the shape of a
    span. *)
Lemma search_INLINE_span (i : nat) (s : str) (ma : bool) (pre m post : str) :
  search INLINE i s ma = Some (pre, m, post) -> inline_span m.
Proof.
  intros H.
  destruct (search_some _ _ _ _ H) as (_ & (j & ma' & st' & Hmatch & Hm & Hpost) & _).
  destruct (match_at_INLINE_some _ _ _ Hmatch)
    as (n & c & Hn & _ & Hs & Hpos & Hmin).
  exists n, c. split; [exact Hn|].
  assert (Em : m = repeat bt n ++ c ++ repeat bt n).
  { rewrite Hm, Hs, Hpos.
    replace (j + (n + (length c + n)) - j)
      with (length (repeat bt n ++ c ++ repeat bt n))
      by (rewrite !length_app, !repeat_length; lia).
    replace (repeat bt n ++ c ++ repeat bt n ++ rest st')
      with ((repeat bt n ++ c ++ repeat bt n) ++ rest st')
      by (now rewrite <- !app_assoc).
    now rewrite firstn_app, Nat.sub_diag, firstn_O, app_nil_r, firstn_all. }
  split; [exact Em|].
  intros k Hk. specialize (Hmin k Hk).
  destruct (startswith (repeat bt n) (skipn k (c ++ repeat bt n))) eqn:F;
    [|reflexivity].
  rewrite <- Hmin.
  replace (c ++ repeat bt n ++ rest st')
    with ((c ++ repeat bt n) ++ rest st') by (now rewrite <- app_assoc).
  rewrite skipn_app.
  symmetry. now apply startswith_app_l.
Qed.

(** ** What a pass records *)

Lemma sub_loop_blocks (r : regex) (Q : str -> Prop) :
  (forall i s ma pre m post, search r i s ma = Some (pre, m, post) -> Q m) ->
  forall fuel i s ma l,
  exists new,
    code_blocks (snd (sub_loop r create_placeholder fuel i s ma l))
    = code_blocks l ++ new /\
    Forall (fun b => Q (content b)) new.
Proof.
  intros HQ. induction fuel as [|fuel IH]; intros i s ma l.
  - exists []. simpl. now rewrite app_nil_r.
  - cbn [sub_loop].
    destruct (search r i s ma) as [[[pre m] post]|] eqn:E.
    + apply HQ in E.
      unfold create_placeholder at 1.
      set (l1 := {| code_blocks := _; placeholder_index := _ |}).
      destruct (IH (i + length pre + length m) post
                   (Nat.eqb (length m) 0) l1) as (new & Hnew & Hall).
      destruct (sub_loop r create_placeholder fuel _ post _ l1) as [tail l2].
      cbn [snd] in *. rewrite Hnew. subst l1. cbn [code_blocks].
      rewrite <- app_assoc. eexists. split; [reflexivity|].
      constructor; [exact E|exact Hall].
    + exists []. simpl. now rewrite app_nil_r.
Qed.



(** ** The whole function *)

Lemma mask_passes (text : str) :
  mask text
  = sub INDENTED create_placeholder
        (fst (sub INLINE create_placeholder
                  (fst (sub FENCED create_placeholder text no_blocks))
                  (snd (sub FENCED create_placeholder text no_blocks))))
        (snd (sub INLINE create_placeholder
                  (fst (sub FENCED create_placeholder text no_blocks))
                  (snd (sub FENCED create_placeholder text no_blocks)))).
Proof.
  unfold mask. fold no_blocks.
  destruct (sub FENCED create_placeholder text no_blocks) as [p1 l1].
  cbn [fst snd].
  destruct (sub INLINE create_placeholder p1 l1) as [p2 l2].
  cbn [fst snd].
  now destruct (sub INDENTED create_placeholder p2 l2).
Qed.

Lemma pipeline_returns (text : str) : exists out, pipeline text = Ok out.
Proof.
  unfold pipeline. destruct (mask text) as [processed l].
  rewrite Director.convert_eq_walk. simpl. eauto.
Qed.

Lemma smart_quote_markdown_returns (text : str) :
  exists out, smart_quote_markdown text = Ok out.
Proof.
  unfold smart_quote_markdown.
  destruct (negb (_has_straight_quotes text)); [eauto|].
  apply pipeline_returns.
Qed.

(** A run of two or more backticks always holds a span: its first
    backtick is closed by its second. *)
Lemma inline_at_two_backticks (s : str) :
  inline_at (bt :: bt :: s) = true.
Proof.
  unfold inline_at. apply existsb_exists. exists 1. split.
  - apply in_down. simpl. lia.
  - reflexivity.
Qed.

End Shield.

(* ===================================================================== *)
(** * A single fenced block, and the project's tests *)
(* ===================================================================== *)

Module Examples.
Import Py Re core Aux ReFacts Patterns Shield.

Lemma fenced_pass_single (c : str) :
  index_of bt3 (c ++ bt3) = Some (length c) ->
  sub FENCED create_placeholder (bt3 ++ c ++ bt3) no_blocks
  = (placeholder_0,
     {| code_blocks := [ {| placeholder := placeholder_0;
                            content := bt3 ++ c ++ bt3 |} ];
        placeholder_index := 1 |}).
Proof.
  intros Hc. set (text := bt3 ++ c ++ bt3).
  assert (Hlen : length text = 3 + (length c + 3))
    by (unfold text; rewrite !length_app; reflexivity).
  assert (Hsearch : search FENCED 0 text false = Some ([], text, [])).
  { unfold text at 1. cbn [bt3 app search].
    change (bt :: bt :: bt :: c ++ bt3) with text.
    rewrite match_at_FENCED.
    replace (startswith bt3 text) with true
      by (symmetry; apply startswith_app).
    change (skipn 3 text) with (c ++ bt3). rewrite Hc. cbn [option_map pos rest].
    replace (0 + (3 + (length c + 3)) - 0) with (length text) by lia.
    replace (3 + (length c + 3)) with (length text) by lia.
    now rewrite firstn_all, skipn_all. }
  unfold sub.
  replace (2 * length text + 2) with (S (S (2 * length text))) by lia.
  cbn [sub_loop]. rewrite Hsearch.
  change (create_placeholder text no_blocks)
    with (placeholder_0,
          {| code_blocks := [ {| placeholder := placeholder_0; content := text |} ];
             placeholder_index := 1 |}).
  cbn [search]. rewrite match_at_FENCED. cbn [startswith bt3].
  now rewrite app_nil_r.
Qed.

(** A text that is one fenced block, whose closing fence is the first
    fence after the opening one, is returned unchanged whatever its
    content. *)
Lemma single_fence_unchanged (c : str) :
  index_of bt3 (c ++ bt3) = Some (length c) ->
  smart_quote_markdown (bt3 ++ c ++ bt3) = Ok (bt3 ++ c ++ bt3).
Proof.
  intros Hc. unfold smart_quote_markdown.
  destruct (negb (_has_straight_quotes (bt3 ++ c ++ bt3))); [reflexivity|].
  unfold pipeline, mask. fold no_blocks.
  rewrite (fenced_pass_single _ Hc).
  rewrite (sub_no_match INLINE create_placeholder placeholder_0)
    by (apply search_INLINE_none; vm_compute; reflexivity).
  rewrite (sub_no_match INDENTED create_placeholder placeholder_0)
    by (vm_compute; reflexivity).
  change (convert_to_smart_quotes placeholder_0) with (Ok placeholder_0).
  cbn [bind code_blocks restore fold_left placeholder content].
  f_equal. unfold placeholder_0. simpl. now rewrite app_nil_r.
Qed.

(** The example of the specification: a fenced block with quotes. *)
Example fenced_example_unchanged :
  let text := lit "```" ++ nl ++ lit "code with " ++ dq ++ lit "quotes" ++ dq
                  ++ nl ++ lit "```" in
  smart_quote_markdown text = Ok text.
Proof. vm_compute. reflexivity. Qed.

(** A text that already holds the text of a placeholder: the restore
    step puts the span in both places.  The program assumes this never
    happens. *)
Example placeholder_collision :
  pipeline (placeholder_0 ++ lit " `a`") = Ok (lit "`a` `a`").
Proof. vm_compute. reflexivity. Qed.

(** ** tests/test_core.py *)

Example test_double_quotes_basic :
  convert_to_smart_quotes (dq ++ lit "Hello" ++ dq)
  = Ok (ldq ++ lit "Hello" ++ rdq).
Proof. reflexivity. Qed.

Example test_single_quotes_basic :
  convert_to_smart_quotes (sq ++ lit "Hello" ++ sq)
  = Ok (lsq ++ lit "Hello" ++ rsq).
Proof. reflexivity. Qed.

Example test_apostrophe_in_word :
  convert_to_smart_quotes (lit "it" ++ sq ++ lit "s")
  = Ok (lit "it" ++ rsq ++ lit "s").
Proof. reflexivity. Qed.

Example test_apostrophe_contraction :
  convert_to_smart_quotes (lit "don" ++ sq ++ lit "t")
  = Ok (lit "don" ++ rsq ++ lit "t").
Proof. reflexivity. Qed.

Example test_nested_quotes :
  convert_to_smart_quotes
    (dq ++ lit "She said " ++ sq ++ lit "hello" ++ sq ++ dq)
  = Ok (ldq ++ lit "She said " ++ lsq ++ lit "hello" ++ rsq ++ rdq).
Proof. reflexivity. Qed.

Example test_quote_after_whitespace :
  convert_to_smart_quotes (lit "He said " ++ dq ++ lit "yes" ++ dq)
  = Ok (lit "He said " ++ ldq ++ lit "yes" ++ rdq).
Proof. reflexivity. Qed.

Example test_quote_after_parenthesis :
  convert_to_smart_quotes (lit "(" ++ dq ++ lit "quote" ++ dq ++ lit ")")
  = Ok (lit "(" ++ ldq ++ lit "quote" ++ rdq ++ lit ")").
Proof. reflexivity. Qed.

Example test_empty_string : convert_to_smart_quotes [] = Ok [].
Proof. reflexivity. Qed.

Example test_no_quotes :
  convert_to_smart_quotes (lit "Hello world") = Ok (lit "Hello world").
Proof. reflexivity. Qed.

Example test_preserves_inline_code :
  smart_quote_markdown (lit "Text with `" ++ dq ++ lit "inline" ++ dq ++ lit "` code")
  = Ok (lit "Text with `" ++ dq ++ lit "inline" ++ dq ++ lit "` code").
Proof. vm_compute. reflexivity. Qed.

Example test_converts_prose_around_code :
  smart_quote_markdown
    (dq ++ lit "Hello" ++ dq ++ lit " and `code` and " ++ dq ++ lit "world" ++ dq)
  = Ok (ldq ++ lit "Hello" ++ rdq ++ lit " and `code` and "
            ++ ldq ++ lit "world" ++ rdq).
Proof. vm_compute. reflexivity. Qed.

Example test_no_quotes_returns_unchanged :
  smart_quote_markdown (lit "No quotes here") = Ok (lit "No quotes here").
Proof. reflexivity. Qed.

Example test_indented_code_block :
  smart_quote_markdown
    (lit "Text before" ++ nl ++ nl ++ lit "    code with " ++ dq ++ lit "quotes"
         ++ dq ++ nl ++ nl ++ lit "Text after " ++ dq ++ lit "quoted" ++ dq)
  = Ok (lit "Text before" ++ nl ++ nl ++ lit "    code with " ++ dq
            ++ lit "quotes" ++ dq ++ nl ++ nl ++ lit "Text after "
            ++ ldq ++ lit "quoted" ++ rdq).
Proof. vm_compute. reflexivity. Qed.

End Examples.

(* ===================================================================== *)
(** * More on the Quote Director *)
(* ===================================================================== *)

Module DirectorMore.
Import Py Re core Spec Aux More Director.

Lemma has_straight_quotes_iff (text : str) :
  _has_straight_quotes text = true <-> In 34%Z text \/ In 39%Z text.
Proof.
  unfold _has_straight_quotes.
  change (STRAIGHT_DOUBLE QUOTES) with [34%Z].
  change (STRAIGHT_SINGLE QUOTES) with [39%Z].
  now rewrite orb_true_iff, !contains_single.
Qed.

(** No character of the opening context is a letter. *)
Lemma context_not_letter (prev : option char) :
  in_opening_context prev = true -> ascii_letter prev = false.
Proof.
  destruct prev as [c|]; [|reflexivity]. simpl.
  rewrite !orb_true_iff, !Z.eqb_eq.
  intros H.
  destruct ((97 <=? c)%Z && (c <=? 122)%Z || (65 <=? c)%Z && (c <=? 90)%Z) eqn:E;
    [|reflexivity].
  apply orb_true_iff in E. rewrite !andb_true_iff, !Z.leb_le in E. lia.
Qed.

(** Both left smart quotes belong to the opening context. *)
Lemma opposite_in_context (prev : option char) :
  is_char 8216%Z prev = true \/ is_char 8220%Z prev = true ->
  in_opening_context prev = true.
Proof.
  destruct prev as [c|]; simpl; [|intros [H|H]; discriminate].
  rewrite !Z.eqb_eq. intros [->| ->]; reflexivity.
Qed.

(** Where the loop calls it ([is_start] holds exactly when there is no
    previous character) the decision ignores the next character. *)
Lemma emit_is_emit_prev (prev : option char) (cur : char) (next : option char) :
  emit prev cur next (match prev with None => true | Some _ => false end)
  = emit_prev prev cur.
Proof.
  unfold emit, emit_prev.
  destruct (cur =? 34)%Z.
  - destruct prev as [c|]; [|reflexivity]. cbn [orb opens].
    change (existsb (Z.eqb c) opening_context_set)
      with (in_opening_context (Some c)).
    destruct (in_opening_context (Some c)) eqn:E; [reflexivity|].
    cbn [orb].
    destruct (is_char 8216%Z (Some c)) eqn:F; [|reflexivity].
    rewrite opposite_in_context in E by (now left). discriminate.
  - destruct (cur =? 39)%Z; [|reflexivity].
    destruct prev as [c|]; [|reflexivity]. cbn [orb opens].
    change (existsb (Z.eqb c) opening_context_set)
      with (in_opening_context (Some c)).
    destruct (in_opening_context (Some c)) eqn:E.
    + rewrite (context_not_letter _ E). reflexivity.
    + cbn [orb].
      destruct (is_char 8220%Z (Some c)) eqn:F.
      * rewrite opposite_in_context in E by (now right). discriminate.
      * now destruct (ascii_letter (Some c) && ascii_letter next).
Qed.

Lemma walk_emit_all (s : str) (p : option char) :
  join (walk (match p with None => true | Some _ => false end) p s)
  = emit_all p s.
Proof.
  revert p. induction s as [|c s IH]; intros p; [reflexivity|].
  simpl walk. unfold join in *. simpl concat.
  rewrite convert_char_emit, emit_is_emit_prev. simpl.
  f_equal. apply (IH (Some c)).
Qed.

Lemma convert_emit_all (text : str) :
  convert_to_smart_quotes text = Ok (emit_all None text).
Proof. rewrite convert_eq_walk. f_equal. apply (walk_emit_all text None). Qed.

Lemma emit_all_nth (s : str) :
  forall p i,
    nth_error (emit_all p s) i
    = option_map (emit_prev (match i with O => p | S j => nth_error s j end))
                 (nth_error s i).
Proof.
  induction s as [|c s IH]; intros p i.
  - destruct i; reflexivity.
  - destruct i as [|i]; [reflexivity|]. simpl. rewrite IH.
    destruct i; reflexivity.
Qed.

Lemma emit_all_app (a b : str) (p : option char) :
  emit_all p (a ++ b)
  = emit_all p a ++ emit_all (match last_of a with None => p | Some x => Some x end) b.
Proof.
  revert p. induction a as [|x a IH]; intros p; [reflexivity|].
  simpl. f_equal. rewrite IH. f_equal. f_equal.
  unfold last_of. simpl.
  destruct (snoc_cases a) as [-> | (a0 & y & ->)]; [reflexivity|].
  rewrite !rev_app_distr. reflexivity.
Qed.

(** After a character of the opening context the text is converted as if
    it began there. *)
Lemma emit_all_restart (x : char) (b : str) :
  opens (Some x) = true -> emit_all (Some x) b = emit_all None b.
Proof.
  intros H. destruct b as [|c b]; [reflexivity|].
  simpl. f_equal. unfold emit_prev. now rewrite H.
Qed.

Lemma context_char_kept (x : char) (p : option char) :
  opens (Some x) = true -> emit_prev p x = x.
Proof.
  simpl. rewrite !orb_true_iff, !Z.eqb_eq. intros H.
  unfold emit_prev.
  replace (x =? 34)%Z with false by (symmetry; apply Z.eqb_neq; lia).
  replace (x =? 39)%Z with false by (symmetry; apply Z.eqb_neq; lia).
  reflexivity.
Qed.

Lemma convert_split (a b : str) (x : char) :
  opens (Some x) = true ->
  convert_to_smart_quotes (a ++ x :: b)
  = Ok (emit_all None a ++ x :: emit_all None b).
Proof.
  intros H. rewrite convert_emit_all, emit_all_app. f_equal. f_equal.
  simpl. rewrite context_char_kept by exact H.
  f_equal. now apply emit_all_restart.
Qed.

End DirectorMore.

(* ===================================================================== *)
(** * More on the Markdown Shield *)
(* ===================================================================== *)

Module ShieldMore.
Import Py Re core Spec Aux More ReFacts Patterns Shield.

(** ** Placeholders are numbered and distinct *)

Lemma create_placeholder_eq (group0 : str) (l : locals) :
  create_placeholder group0 l
  = (placeholder_of (placeholder_index l),
     {| code_blocks :=
          code_blocks l
          ++ [ {| placeholder := placeholder_of (placeholder_index l);
                  content := group0 |} ];
        placeholder_index := placeholder_index l + 1 |}).
Proof. reflexivity. Qed.

Lemma lit_inj (s1 s2 : string) : lit s1 = lit s2 -> s1 = s2.
Proof.
  unfold lit. intros H.
  rewrite <- (string_of_list_ascii_of_string s1),
          <- (string_of_list_ascii_of_string s2).
  f_equal.
  revert H. generalize (list_ascii_of_string s1), (list_ascii_of_string s2).
  induction l as [|a l IH]; intros [|b l']; simpl; try discriminate;
    [reflexivity|].
  intros [= H1 H2]. apply N2Z.inj in H1.
  f_equal; [|now apply IH].
  rewrite <- (ascii_N_embedding a), <- (ascii_N_embedding b). now rewrite H1.
Qed.

Lemma to_uint_nonnil (n : nat) : Nat.to_uint n <> Decimal.Nil.
Proof.
  rewrite <- (DecimalNat.Unsigned.of_to n) at 1.
  rewrite DecimalNat.Unsigned.to_of. apply DecimalFacts.unorm_nonnil.
Qed.

Lemma format_int_inj (n m : nat) : format_int n = format_int m -> n = m.
Proof.
  unfold format_int. intros H. apply lit_inj in H.
  apply DecimalNat.Unsigned.to_uint_inj.
  assert (E : Some (Nat.to_uint n) = Some (Nat.to_uint m)); [|congruence].
  rewrite <- (NilZero.usu _ (to_uint_nonnil n)),
          <- (NilZero.usu _ (to_uint_nonnil m)).
  now rewrite H.
Qed.

Lemma placeholder_of_inj (n m : nat) :
  placeholder_of n = placeholder_of m -> n = m.
Proof.
  unfold placeholder_of. intros H.
  apply app_inv_head, app_inv_tail in H. now apply format_int_inj.
Qed.

(** the blocks [new], recorded from index [start] on, carry the
    placeholders of their ranks *)
Lemma sub_loop_numbered (r : regex) :
  forall fuel i s ma l,
  exists new,
    code_blocks (snd (sub_loop r create_placeholder fuel i s ma l))
    = code_blocks l ++ new /\
    placeholder_index (snd (sub_loop r create_placeholder fuel i s ma l))
    = placeholder_index l + length new /\
    forall j b, nth_error new j = Some b ->
                placeholder b = placeholder_of (placeholder_index l + j).
Proof.
  induction fuel as [|fuel IH]; intros i s ma l.
  - exists []. simpl. rewrite app_nil_r, Nat.add_0_r.
    repeat split. intros [|j] b H; discriminate.
  - cbn [sub_loop].
    destruct (search r i s ma) as [[[pre m] post]|].
    + rewrite create_placeholder_eq.
      set (l1 := {| code_blocks := _; placeholder_index := _ |}).
      destruct (IH (i + length pre + length m) post
                   (Nat.eqb (length m) 0) l1) as (new & Hb & Hi & Hn).
      destruct (sub_loop r create_placeholder fuel _ post _ l1) as [tail l2].
      cbn [snd] in *. subst l1. cbn [code_blocks placeholder_index] in *.
      eexists. split; [rewrite Hb, <- app_assoc; reflexivity|].
      split; [rewrite Hi; simpl; lia|].
      intros [|j] b H; simpl in H.
      * injection H as <-. simpl. now rewrite Nat.add_0_r.
      * rewrite (Hn _ _ H). f_equal. lia.
    + exists []. simpl. rewrite app_nil_r, Nat.add_0_r.
      repeat split. intros [|j] b H; discriminate.
Qed.

Lemma sub_numbered (r : regex) (text : str) (l : locals) :
  numbered_inv l -> numbered_inv (snd (sub r create_placeholder text l)).
Proof.
  intros [Hi Hn]. unfold sub.
  destruct (sub_loop_numbered r (2 * length text + 2) 0 text false l)
    as (new & Hb & Hi' & Hn').
  split.
  - rewrite Hi', Hb, length_app. lia.
  - intros j b H. rewrite Hb in H.
    destruct (Nat.lt_ge_cases j (length (code_blocks l))) as [Hlt|Hge].
    + rewrite nth_error_app1 in H by exact Hlt. now apply Hn.
    + rewrite nth_error_app2 in H by exact Hge.
      rewrite (Hn' _ _ H). f_equal. lia.
Qed.

Lemma mask_numbered (text : str) : numbered_inv (snd (mask text)).
Proof.
  rewrite mask_passes. repeat apply sub_numbered.
  split; [reflexivity|]. intros [|j] b H; discriminate.
Qed.

Lemma numbered_nodup (l : locals) :
  numbered_inv l -> NoDup (map placeholder (code_blocks l)).
Proof.
  intros [_ Hn]. apply (NoDup_nth_error).
  intros i j Hi E. rewrite length_map in Hi.
  rewrite !nth_error_map in E.
  destruct (nth_error (code_blocks l) i) as [b|] eqn:Ei;
    [|apply nth_error_None in Ei; lia].
  destruct (nth_error (code_blocks l) j) as [b'|] eqn:Ej; [|discriminate].
  simpl in E. injection E as E.
  rewrite (Hn _ _ Ei), (Hn _ _ Ej) in E. now apply placeholder_of_inj.
Qed.


(** ** What a placeholder is made of *)

Lemma placeholder_of_chars (j : nat) :
  Forall (fun c => placeholder_char c = true) (placeholder_of j).
Proof.
  unfold placeholder_of.
  apply Forall_app. split; [|apply Forall_app; split].
  - vm_compute. repeat constructor.
  - eapply Forall_impl; [|apply format_int_digits].
    intros c [H1 H2]. unfold placeholder_char.
    apply Z.leb_le in H1, H2. rewrite H1, H2. simpl. apply orb_true_r.
  - vm_compute. repeat constructor.
Qed.

Lemma placeholder_char_plain (c : char) :
  placeholder_char c = true ->
  c <> 96%Z /\ c <> 34%Z /\ c <> 39%Z /\ c <> 10%Z /\ c <> 32%Z /\ c <> 9%Z.
Proof.
  unfold placeholder_char.
  rewrite !orb_true_iff, !andb_true_iff, !Z.eqb_eq, !Z.leb_le. lia.
Qed.

Lemma placeholder_of_lacks (j : nat) (c : char) :
  In c [96%Z; 34%Z; 39%Z; 10%Z; 32%Z; 9%Z] -> ~ In c (placeholder_of j).
Proof.
  intros Hc Hin.
  assert (H := placeholder_of_chars j).
  rewrite Forall_forall in H. apply H, placeholder_char_plain in Hin.
  simpl in Hc. intuition congruence.
Qed.

(** ** Texts without backticks *)

Lemma startswith_head (d s : str) (x : char) :
  startswith (x :: d) s = true -> In x s.
Proof.
  destruct s as [|y s]; simpl; [discriminate|].
  intros H. apply andb_true_iff in H as [H _]. apply Z.eqb_eq in H. now left.
Qed.

Lemma no_backtick_no_fence (s : str) : ~ In bt s -> has_fence s = false.
Proof.
  induction s as [|x s IH]; intros H; [reflexivity|].
  cbn [has_fence]. apply orb_false_iff. split.
  - unfold fenced_at.
    destruct (startswith bt3 (x :: s)) eqn:E; [|reflexivity].
    apply startswith_head in E. contradiction.
  - apply IH. intros Hin. apply H. now right.
Qed.

Lemma run_len_zero (s : str) : ~ In bt s -> run_len bt s = 0.
Proof.
  destruct s as [|x s]; [reflexivity|]. intros H. cbn [run_len].
  destruct (bt =? x)%Z eqn:E; [|reflexivity].
  apply Z.eqb_eq in E. exfalso. apply H. now left.
Qed.

Lemma no_backtick_no_inline (s : str) : ~ In bt s -> has_inline s = false.
Proof.
  induction s as [|x s IH]; intros H.
  - reflexivity.
  - cbn [has_inline]. apply orb_false_iff. split.
    + unfold inline_at. now rewrite run_len_zero.
    + apply IH. intros Hin. apply H. now right.
Qed.

(** ** Fenced blocks *)

Lemma search_FENCED_block (i : nat) (s : str) (ma : bool) (pre m post : str) :
  search FENCED i s ma = Some (pre, m, post) -> fenced_block m.
Proof.
  intros H.
  destruct (search_some _ _ _ _ H)
    as (_ & (j & ma' & st' & Hmatch & Hm & Hpost) & _).
  rewrite match_at_FENCED in Hmatch.
  remember (m ++ post) as t eqn:Et0.
  destruct (startswith bt3 t) eqn:Hstart; [|discriminate].
  destruct (index_of bt3 (skipn 3 t)) as [k|] eqn:Hk; [|discriminate].
  cbn [option_map] in Hmatch. injection Hmatch as <-. cbn [pos rest] in *.
  apply startswith_split in Hstart. cbn [length bt3] in Hstart.
  apply index_of_some in Hk as (Hsplit & Hlen & Hmin).
  cbn [length bt3] in Hsplit, Hlen.
  assert (Hc : length (firstn k (skipn 3 t)) = k)
    by (rewrite length_firstn; lia).
  remember (firstn k (skipn 3 t)) as c eqn:Ec.
  remember (skipn (k + 3) (skipn 3 t)) as r eqn:Er.
  assert (Et : t = (bt3 ++ c ++ bt3) ++ r).
  { rewrite Hstart, Hsplit. now rewrite <- !app_assoc. }
  exists c. split.
  - rewrite Hm.
    replace (j + S (S (S (k + 3))) - j) with (length (bt3 ++ c ++ bt3))
      by (rewrite !length_app, Hc; simpl; lia).
    rewrite Et.
    now rewrite firstn_app, Nat.sub_diag, firstn_O, app_nil_r, firstn_all.
  - intros n Hn. rewrite Hc in Hn. specialize (Hmin n Hn).
    destruct (startswith bt3 (skipn n (c ++ bt3))) eqn:F; [|reflexivity].
    rewrite <- Hmin, Hsplit.
    replace (c ++ bt3 ++ r) with ((c ++ bt3) ++ r)
      by (now rewrite <- app_assoc).
    rewrite skipn_app. symmetry. now apply startswith_app_l.
Qed.

Lemma fenced_pass_blocks (text : str) (l : locals) :
  exists blocks,
    code_blocks (snd (sub FENCED create_placeholder text l))
    = code_blocks l ++ blocks /\
    Forall (fun b => fenced_block (content b)) blocks.
Proof.
  unfold sub. apply sub_loop_blocks.
  intros i s ma pre m post. apply search_FENCED_block.
Qed.

(** ** The inline pass leaves one backtick at most *)

Lemma count_zero (s : str) (c : char) :
  ~ In c s -> count_occ Z.eq_dec s c = 0.
Proof. apply count_occ_not_In. Qed.

Lemma no_inline_one_backtick (s : str) :
  has_inline s = false -> count_occ Z.eq_dec s bt <= 1.
Proof.
  induction s as [|x s IH]; intros H; [simpl; lia|].
  cbn [has_inline] in H. apply orb_false_iff in H as [Hat Hrest].
  specialize (IH Hrest). simpl.
  destruct (Z.eq_dec x bt) as [->|Hx]; [|exact IH].
  assert (Hno : ~ In bt s).
  { intros Hin. unfold inline_at in Hat.
    assert (Ht : existsb (fun n => contains (repeat bt n) (skipn n (bt :: s)))
                         (down (run_len bt (bt :: s))) = true); [|congruence].
    apply existsb_exists. exists 1. split.
    - apply in_down. simpl. lia.
    - simpl. now apply Director.contains_single. }
  rewrite (@count_zero s bt Hno). lia.
Qed.

Lemma match_INLINE_starts_with_backtick (j : nat) (t : str) (ma : bool)
      (st' : mstate) :
  match_at INLINE j t ma = Some st' -> exists t', t = bt :: t'.
Proof.
  intros H.
  destruct (match_at_INLINE_some _ _ _ H) as (n & c & Hn & _ & Hs & _).
  destruct n as [|n]; [lia|]. rewrite Hs. simpl. eauto.
Qed.

(** Before the span that is matched there is no backtick. *)
Lemma search_INLINE_pre (i : nat) (s : str) (ma : bool) (pre m post : str) :
  search INLINE i s ma = Some (pre, m, post) -> ~ In bt pre.
Proof.
  intros H.
  destruct (search_some _ _ _ _ H)
    as (_ & (j & ma' & st' & Hmatch & _) & Hpre).
  apply match_INLINE_starts_with_backtick in Hmatch as [t' Ht].
  intros Hin. apply in_split in Hin as (a1 & a2 & Ea).
  destruct (Hpre a1 (bt :: a2) Ea) as (j' & ma'' & Hnone); [discriminate|].
  apply match_at_INLINE_none in Hnone.
  unfold inline_at in Hnone.
  assert (Ht' : existsb
                  (fun n => contains (repeat bt n)
                                     (skipn n ((bt :: a2) ++ m ++ post)))
                  (down (run_len bt ((bt :: a2) ++ m ++ post))) = true);
    [|congruence].
  apply existsb_exists. exists 1. split.
  - apply in_down. simpl. lia.
  - simpl. apply Director.contains_single. rewrite Ht.
    apply in_or_app. right. now left.
Qed.

Lemma count_app (a b : str) (c : char) :
  count_occ Z.eq_dec (a ++ b) c
  = count_occ Z.eq_dec a c + count_occ Z.eq_dec b c.
Proof. apply count_occ_app. Qed.

Lemma inline_loop_backticks :
  forall fuel i s ma l,
    measure s ma <= fuel ->
    count_occ Z.eq_dec
              (fst (sub_loop INLINE create_placeholder fuel i s ma l)) bt <= 1.
Proof.
  induction fuel as [|fuel IH]; intros i s ma l Hm.
  - unfold measure in Hm. destruct ma; lia.
  - cbn [sub_loop].
    destruct (search INLINE i s ma) as [[[pre m] post]|] eqn:E.
    + assert (Hdec := search_measure _ _ _ _ E).
      assert (Hpre := search_INLINE_pre _ _ _ E).
      rewrite create_placeholder_eq.
      set (l1 := {| code_blocks := _; placeholder_index := _ |}).
      specialize (IH (i + length pre + length m) post
                     (Nat.eqb (length m) 0) l1).
      destruct (sub_loop INLINE create_placeholder fuel _ post _ l1)
        as [tail l2].
      cbn [fst] in *. rewrite !count_app.
      rewrite (@count_zero pre bt Hpre).
      rewrite (@count_zero _ bt
                 (@placeholder_of_lacks (placeholder_index l) bt
                                        (or_introl eq_refl))).
      simpl. apply IH. lia.
    + cbn [fst]. apply no_inline_one_backtick.
      now apply search_INLINE_none in E.
Qed.

Lemma inline_pass_backticks (text : str) (l : locals) :
  count_occ Z.eq_dec (fst (sub INLINE create_placeholder text l)) bt <= 1.
Proof. apply inline_loop_backticks. unfold measure. lia. Qed.


(** ** Restoring *)

Lemma replace_go_absent (old new : str) :
  forall s, contains old s = false -> replace_go old new 0 s = s.
Proof.
  induction s as [|c s IH]; intros H; [reflexivity|].
  cbn [contains] in H. apply orb_false_iff in H as [H1 H2].
  cbn [replace_go]. rewrite H1. f_equal. now apply IH.
Qed.

Lemma replace_absent (s old new : str) :
  contains old s = false -> replace s old new = s.
Proof.
  intros H. destruct old as [|x old].
  - destruct s; discriminate.
  - now apply replace_go_absent.
Qed.

Lemma restore_absent (blocks : list _CodeBlock) (s : str) :
  Forall (fun b => contains (placeholder b) s = false) blocks ->
  restore blocks s = s.
Proof.
  induction 1 as [|b blocks Hb _ IH]; [reflexivity|].
  cbn [restore fold_left]. rewrite replace_absent by exact Hb. exact IH.
Qed.

(** ** A placeholder holds nothing a pass looks for *)

Lemma no_newline_no_indent_after (s : str) :
  ~ In 10%Z s -> indent_after_newline s = false.
Proof.
  induction s as [|x s IH]; intros H; [reflexivity|].
  cbn [indent_after_newline].
  replace (x =? 10)%Z with false
    by (symmetry; apply Z.eqb_neq; intros ->; apply H; now left).
  apply IH. intros Hin. apply H. now right.
Qed.

Lemma placeholder_no_indent (j : nat) : has_indented (placeholder_of j) = false.
Proof.
  unfold has_indented. apply orb_false_iff. split.
  - reflexivity.
  - apply no_newline_no_indent_after, placeholder_of_lacks. simpl. tauto.
Qed.

Lemma placeholder_converted (j : nat) :
  convert_to_smart_quotes (placeholder_of j) = Ok (placeholder_of j).
Proof.
  apply Director.convert_identity; apply placeholder_of_lacks; simpl; tauto.
Qed.


(** ** A pass adds no backtick *)

Lemma sub_loop_backticks (r : regex) :
  forall fuel i s ma l,
    count_occ Z.eq_dec (fst (sub_loop r create_placeholder fuel i s ma l)) bt
    <= count_occ Z.eq_dec s bt.
Proof.
  induction fuel as [|fuel IH]; intros i s ma l; [simpl; lia|].
  cbn [sub_loop].
  destruct (search r i s ma) as [[[pre m] post]|] eqn:E; [|simpl; lia].
  apply search_split in E as [-> _].
  rewrite create_placeholder_eq.
  set (l1 := {| code_blocks := _; placeholder_index := _ |}).
  specialize (IH (i + length pre + length m) post (Nat.eqb (length m) 0) l1).
  destruct (sub_loop r create_placeholder fuel _ post _ l1) as [tail l2].
  cbn [fst] in *. rewrite !count_app.
  rewrite (@count_zero _ bt
             (@placeholder_of_lacks (placeholder_index l) bt
                                    (or_introl eq_refl))).
  lia.
Qed.

Lemma sub_backticks (r : regex) (text : str) (l : locals) :
  count_occ Z.eq_dec (fst (sub r create_placeholder text l)) bt
  <= count_occ Z.eq_dec text bt.
Proof. apply sub_loop_backticks. Qed.

End ShieldMore.

(* ===================================================================== *)
(** * The indented pattern *)
(* ===================================================================== *)

Module Indented.
Import Py Re core Spec Aux More ReFacts Patterns Shield.

(** ** The parts of the pattern *)

Lemma iterate_greedy_sat (step : mstate -> list mstate) (p : char -> bool) :
  (forall st, step st
              = match rest st with
                | c :: _ => if p c then [advance 1 st] else []
                | [] => []
                end) ->
  forall s st,
    rest st = s ->
    iterate true step (length s) st
    = map (fun k => advance k st) (down (span_len p s) ++ [0]).
Proof.
  intros Hstep. induction s as [|x s IH]; intros st E.
  - simpl. now rewrite advance_0.
  - cbn [length iterate]. rewrite Hstep, E. cbn [span_len].
    destruct (p x).
    + cbn [flat_map]. rewrite app_nil_r.
      assert (E1 : rest (advance 1 st) = s) by (simpl; now rewrite E).
      rewrite E1.
      replace (length s <? length (x :: s)) with true
        by (symmetry; apply Nat.ltb_lt; simpl; lia).
      rewrite (IH _ E1), down_S.
      rewrite (map_app _ (map S _) [0]), map_map. cbn [map].
      rewrite advance_0. f_equal.
      apply map_ext. intros k. apply advance_advance.
    + simpl. now rewrite advance_0.
Qed.

Lemma run_dot_star (st : mstate) :
  run (Star true Dot) st
  = map (fun k => advance k st) (down (line_len (rest st)) ++ [0]).
Proof.
  cbn [run]. fold Dot. unfold line_len.
  apply iterate_greedy_sat; [reflexivity|reflexivity].
Qed.

Lemma sp4_not_tab (s : str) (c : char) :
  c = 9%Z -> startswith sp4 s = true -> startswith [c] s = false.
Proof.
  intros ->. destruct s as [|x s]; [discriminate|]. unfold sp4. cbn [startswith].
  intros H. apply andb_true_iff in H as [H _]. apply Z.eqb_eq in H.
  subst x. reflexivity.
Qed.

Lemma run_indent (st : mstate) :
  run indent st
  = match indent_len (rest st) with
    | Some k => [advance k st]
    | None => []
    end.
Proof.
  unfold indent.
  change (run (Alt ?a ?b) st) with (run a st ++ run b st).
  rewrite run_times_chr, run_chr. change (repeat 32%Z 4) with sp4.
  unfold indent_len.
  destruct (startswith sp4 (rest st)) eqn:E.
  - now rewrite (sp4_not_tab (rest st) eq_refl E).
  - cbn [app].
    match goal with
    | |- (if ?b then _ else _) = _ => now destruct b eqn:F; cbn [startswith] in *; rewrite ?F
    end.
Qed.

(** a newline and an indented line: the line taken to its end first *)
Lemma run_line (st : mstate) :
  run (Seq newline (Seq indent (Star true Dot))) st
  = match rest st with
    | c :: s1 =>
        if (c =? 10)%Z then
          match indent_len s1 with
          | Some k =>
              map (fun j => advance (1 + (k + j)) st)
                  (down (line_len (skipn k s1)) ++ [0])
          | None => []
          end
        else []
    | [] => []
    end.
Proof.
  unfold newline.
  change (run (Seq (Chr 10%Z) ?r) st) with (flat_map (run r) (run (Chr 10%Z) st)).
  rewrite run_chr.
  destruct (rest st) as [|c s1] eqn:E; [reflexivity|].
  cbn [startswith]. rewrite andb_true_r, (Z.eqb_sym 10 c).
  destruct (c =? 10)%Z; [|reflexivity].
  cbn [flat_map]. rewrite app_nil_r.
  change (run (Seq indent ?r) ?x) with (flat_map (run r) (run indent x)).
  rewrite run_indent. cbn [rest advance]. rewrite E. cbn [skipn].
  destruct (indent_len s1) as [k|]; [|reflexivity].
  cbn [flat_map]. rewrite app_nil_r, run_dot_star.
  cbn [rest advance]. rewrite E. cbn [skipn].
  apply map_ext. intros j. rewrite !advance_advance. reflexivity.
Qed.

(** ** The most preferred result *)

Lemma hd_app {A : Type} (a b : list A) :
  hd_error (a ++ b)
  = match hd_error a with
    | Some x => Some x
    | None => hd_error b
    end.
Proof. now destruct a. Qed.

Lemma hd_down (n : nat) : hd_error (down n ++ [0]) = Some n.
Proof. now destruct n. Qed.

Lemma hd_flat_map {A B : Type} (f : A -> list B) (x : A) (l : list A) (y : B) :
  hd_error (f x) = Some y -> hd_error (flat_map f (x :: l)) = Some y.
Proof. intros H. cbn [flat_map]. now rewrite hd_app, H. Qed.

Lemma indented_line_len_split (s : str) (n : nat) :
  indented_line_len s = Some n ->
  exists k, indent_len s = Some k /\ n = k + line_len (skipn k s).
Proof.
  unfold indented_line_len. destruct (indent_len s) as [k|]; [|discriminate].
  intros [= <-]. eauto.
Qed.

(** the further lines: as many as there are *)
Lemma hd_more_lines :
  forall fuel st,
    hd_error (iterate true (run (Seq newline (Seq indent (Star true Dot))))
                      fuel st)
    = Some (advance (more_lines_len fuel (rest st)) st).
Proof.
  induction fuel as [|fuel IH]; intros st.
  - simpl. now rewrite advance_0.
  - cbn [iterate more_lines_len]. rewrite run_line.
    destruct (rest st) as [|c s1] eqn:E;
      [cbn [flat_map app hd_error]; now rewrite advance_0|].
    destruct (c =? 10)%Z;
      [|cbn [flat_map app hd_error]; now rewrite advance_0].
    unfold indented_line_len.
    destruct (indent_len s1) as [k|];
      [|cbn [flat_map app hd_error]; now rewrite advance_0].
    set (L := line_len (skipn k s1)).
    destruct (down L ++ [0]) as [|j js] eqn:Ed;
      [now destruct L|].
    assert (Hj : j = L).
    { assert (H := hd_down L). rewrite Ed in H. now injection H. }
    subst j. cbn [map]. rewrite hd_app.
    set (mid := advance (1 + (k + L)) st).
    assert (Hmid : rest mid = skipn (S (k + L)) (c :: s1))
      by (unfold mid; cbn [rest advance]; now rewrite E).
    erewrite hd_flat_map.
    2:{ replace (length (rest mid) <? length (c :: s1)) with true.
        - apply IH.
        - symmetry. apply Nat.ltb_lt. rewrite Hmid, length_skipn. simpl. lia. }
    rewrite Hmid. unfold mid. rewrite advance_advance. reflexivity.
Qed.

(** an indented line, the rest of it, and the further lines *)
Lemma hd_block (st : mstate) :
  hd_error
    (run (Seq indent
              (Seq (Star true Dot)
                   (Star true (Seq newline (Seq indent (Star true Dot))))))
         st)
  = option_map (fun n => advance n st) (block_len (rest st)).
Proof.
  change (run (Seq indent ?r) st) with (flat_map (run r) (run indent st)).
  rewrite run_indent. unfold block_len, indented_line_len.
  destruct (indent_len (rest st)) as [k|]; [|reflexivity].
  set (L := line_len (skipn k (rest st))).
  cbn [option_map flat_map]. rewrite app_nil_r.
  change (run (Seq (Star true Dot) ?r) ?x)
    with (flat_map (run r) (run (Star true Dot) x)).
  rewrite run_dot_star. cbn [rest advance]. fold L.
  destruct (down L ++ [0]) as [|j js] eqn:Ed; [now destruct L|].
  assert (Hj : j = L).
  { assert (H := hd_down L). rewrite Ed in H. now injection H. }
  subst j. cbn [map].
  erewrite hd_flat_map.
  2:{ change (run (Star true ?r) ?x)
        with (iterate true (run r) (length (rest x)) x).
      apply hd_more_lines. }
  cbn [rest advance]. rewrite !skipn_skipn, !advance_advance.
  replace (L + k) with (k + L) by lia. f_equal. f_equal. lia.
Qed.


Lemma indent_len_pos (s : str) (k : nat) : indent_len s = Some k -> 1 <= k.
Proof.
  unfold indent_len. destruct (startswith sp4 s); [intros [= <-]; lia|].
  destruct (startswith [9%Z] s); [intros [= <-]; lia|discriminate].
Qed.

Lemma block_len_pos (s : str) (n : nat) : block_len s = Some n -> 1 <= n.
Proof.
  unfold block_len, indented_line_len.
  destruct (indent_len s) as [k|] eqn:E; [|discriminate].
  apply indent_len_pos in E. intros [= <-]. lia.
Qed.

Lemma indented_match_pos (i : nat) (s : str) (n : nat) :
  indented_match i s = Some n -> 1 <= n.
Proof.
  unfold indented_match.
  destruct (if Nat.eqb i 0 then block_len s else None) as [m|] eqn:E.
  - intros [= <-]. destruct (Nat.eqb i 0); [|discriminate].
    now apply block_len_pos in E.
  - destruct s as [|c s1]; [discriminate|].
    destruct (c =? 10)%Z; [|discriminate].
    destruct (block_len s1); [|discriminate]. intros [= <-]. lia.
Qed.

(** the state a match is read from: offset and text left *)
Lemma hd_group_block (st1 : mstate) :
  option_map (fun st' => (pos st', rest st'))
    (hd_error
       (run (Group 1
               (Seq indent
                    (Seq (Star true Dot)
                         (Star true (Seq newline (Seq indent (Star true Dot)))))))
            st1))
  = option_map (fun n => (pos st1 + n, skipn n (rest st1)))
               (block_len (rest st1)).
Proof.
  change (run (Group 1 ?r) st1) with (map (set_group 1 st1) (run r st1)).
  rewrite hd_map, hd_block.
  now destruct (block_len (rest st1)).
Qed.

Lemma hd_INDENTED (i : nat) (s : str) :
  option_map (fun st' => (pos st', rest st'))
    (hd_error (run INDENTED {| pos := i; rest := s; groups := [] |}))
  = option_map (fun n => (i + n, skipn n s)) (indented_match i s).
Proof.
  set (st0 := {| pos := i; rest := s; groups := [] |}).
  unfold INDENTED.
  change (run (Seq (Alt Bos newline) ?r) st0)
    with (flat_map (run r) (run Bos st0 ++ run newline st0)).
  rewrite flat_map_app, hd_app.
  unfold indented_match.
  assert (Hbos :
            option_map (fun st' => (pos st', rest st'))
              (hd_error (flat_map
                           (run (Group 1
                                   (Seq indent
                                        (Seq (Star true Dot)
                                             (Star true (Seq newline (Seq indent (Star true Dot))))))))
                           (run Bos st0)))
            = option_map (fun n => (i + n, skipn n s))
                         (if Nat.eqb i 0 then block_len s else None)).
  { cbn [run pos st0]. destruct (Nat.eqb i 0); [|reflexivity].
    cbn [flat_map]. rewrite app_nil_r. apply (hd_group_block st0). }
  destruct (hd_error (flat_map _ (run Bos st0))) as [x|] eqn:Ex.
  - destruct (if Nat.eqb i 0 then block_len s else None); [exact Hbos|discriminate].
  - destruct (if Nat.eqb i 0 then block_len s else None); [discriminate|].
    change (run newline st0) with (run (Chr 10%Z) st0).
    rewrite (run_chr 10%Z st0). cbn [rest st0].
    destruct s as [|c s1]; [reflexivity|].
    cbn [startswith]. rewrite andb_true_r, (Z.eqb_sym 10 c).
    destruct (c =? 10)%Z; [|reflexivity].
    cbn [flat_map]. rewrite app_nil_r.
    rewrite (hd_group_block (advance 1 st0)). cbn [pos rest advance st0 skipn].
    destruct (block_len s1); [|reflexivity].
    cbn [option_map]. f_equal. f_equal. lia.
Qed.

Lemma find_head {A : Type} (P : A -> bool) (l : list A) :
  (forall x, hd_error l = Some x -> P x = true) -> find P l = hd_error l.
Proof.
  destruct l as [|x l]; intros H; simpl; [reflexivity|].
  now rewrite H.
Qed.

(** The indented pattern matches at offset [i] exactly what
    [indented_match] measures. *)
Lemma match_at_INDENTED (i : nat) (s : str) (ma : bool) :
  option_map (fun st' => (pos st', rest st')) (match_at INDENTED i s ma)
  = option_map (fun n => (i + n, skipn n s)) (indented_match i s).
Proof.
  unfold match_at. rewrite find_head; [apply hd_INDENTED|].
  intros x Hx.
  assert (H := hd_INDENTED i s). rewrite Hx in H. cbn [option_map] in H.
  destruct (indented_match i s) as [n|] eqn:E; [|discriminate].
  apply indented_match_pos in E. injection H as Hp _.
  rewrite Hp. replace (i <? i + n) with true
    by (symmetry; apply Nat.ltb_lt; lia).
  apply orb_true_r.
Qed.


(** ** Where the pattern does not match *)

Lemma block_len_none (s : str) : block_len s = None <-> indent_len s = None.
Proof.
  unfold block_len, indented_line_len.
  destruct (indent_len s); split; congruence.
Qed.

Lemma match_at_INDENTED_none (i : nat) (s : str) (ma : bool) :
  match_at INDENTED i s ma = None <-> indented_match i s = None.
Proof.
  assert (H := match_at_INDENTED i s ma).
  destruct (match_at INDENTED i s ma), (indented_match i s);
    try discriminate; split; congruence.
Qed.

Lemma indented_match_none (i : nat) (s : str) :
  indented_match i s = None
  <-> (Nat.eqb i 0 && is_some (indent_len s)
       || match s with
          | c :: s1 => (c =? 10)%Z && is_some (indent_len s1)
          | [] => false
          end) = false.
Proof.
  unfold indented_match.
  destruct (Nat.eqb i 0); cbn [andb orb].
  - destruct (block_len s) as [n|] eqn:E.
    + assert (indent_len s <> None) by (rewrite <- block_len_none; congruence).
      destruct (indent_len s); [|contradiction]. split; discriminate.
    + apply block_len_none in E. rewrite E. cbn [is_some orb].
      destruct s as [|c s1]; [tauto|].
      destruct (c =? 10)%Z; [|tauto]. cbn [andb].
      destruct (block_len s1) eqn:F.
      * assert (indent_len s1 <> None) by (rewrite <- block_len_none; congruence).
        destruct (indent_len s1); [|contradiction]. split; discriminate.
      * apply block_len_none in F. rewrite F. tauto.
  - destruct s as [|c s1]; [tauto|].
    destruct (c =? 10)%Z; [|tauto]. cbn [andb].
    destruct (block_len s1) eqn:F.
    + assert (indent_len s1 <> None) by (rewrite <- block_len_none; congruence).
      destruct (indent_len s1); [|contradiction]. split; discriminate.
    + apply block_len_none in F. rewrite F. tauto.
Qed.

Lemma search_INDENTED_none :
  forall s i ma,
    search INDENTED i s ma = None
    <-> (Nat.eqb i 0 && is_some (indent_len s) || indent_after_newline s) = false.
Proof.
  induction s as [|c s IH]; intros i ma; cbn [search indent_after_newline].
  - rewrite orb_false_r.
    assert (H := match_at_INDENTED_none i [] ma).
    rewrite indented_match_none, orb_false_r in H.
    destruct (match_at INDENTED i [] ma); rewrite <- H; split; congruence.
  - assert (H := match_at_INDENTED_none i (c :: s) ma).
    rewrite indented_match_none in H.
    specialize (IH (S i) false). cbn [Nat.eqb andb orb] in IH.
    rewrite orb_assoc. rewrite orb_false_iff, <- H, <- IH.
    destruct (match_at INDENTED i (c :: s) ma).
    + split; [discriminate|intros [? _]; discriminate].
    + destruct (search INDENTED (S i) s false) as [[[? ?] ?]|];
        split; try tauto; try discriminate.
      intros [_ ?]; discriminate.
Qed.

(** A text none of whose lines is indented passes the indented pass
    unchanged. *)
Lemma indented_pass_no_match (text : str) (l : locals) :
  has_indented text = false ->
  sub INDENTED create_placeholder text l = (text, l).
Proof.
  intros H. apply sub_no_match. apply search_INDENTED_none. exact H.
Qed.


(** ** Prose only *)

Lemma mask_prose (text : str) :
  ~ In bt text -> has_indented text = false -> mask text = (text, no_blocks).
Proof.
  intros Hbt Hind. unfold mask. fold no_blocks.
  rewrite (sub_no_match FENCED create_placeholder text)
    by (apply search_FENCED_none; now apply ShieldMore.no_backtick_no_fence).
  rewrite (sub_no_match INLINE create_placeholder text)
    by (apply search_INLINE_none; now apply ShieldMore.no_backtick_no_inline).
  now rewrite indented_pass_no_match.
Qed.

Lemma prose_only (text : str) :
  ~ In bt text -> has_indented text = false ->
  smart_quote_markdown text = convert_to_smart_quotes text.
Proof.
  intros Hbt Hind. unfold smart_quote_markdown.
  destruct (_has_straight_quotes text) eqn:E; cbn [negb].
  - unfold pipeline. rewrite (mask_prose text Hbt Hind).
    rewrite Director.convert_eq_walk. reflexivity.
  - symmetry. apply Director.convert_identity; intros Hin;
      assert (Ht : _has_straight_quotes text = true)
        by (apply DirectorMore.has_straight_quotes_iff; tauto);
      congruence.
Qed.

(** ** The shape of a match *)

Lemma firstn_add {A : Type} (a b : nat) (l : list A) :
  firstn (a + b) l = firstn a l ++ firstn b (skipn a l).
Proof.
  revert l. induction a as [|a IH]; intros l; [reflexivity|].
  destruct l as [|x l]; simpl; [now rewrite firstn_nil|].
  now rewrite IH.
Qed.

Lemma span_firstn (p : char -> bool) (s : str) :
  Forall (fun c => p c = true) (firstn (span_len p s) s).
Proof.
  induction s as [|c s IH]; simpl; [constructor|].
  destruct (p c) eqn:E; simpl; [|constructor].
  constructor; assumption.
Qed.

Lemma span_skipn (p : char -> bool) (s : str) :
  skipn (span_len p s) s = []
  \/ exists c r, skipn (span_len p s) s = c :: r /\ p c = false.
Proof.
  induction s as [|c s IH]; simpl; [now left|].
  destruct (p c) eqn:E; simpl; [exact IH|].
  right. eauto.
Qed.

Lemma line_no_newline (s : str) : ~ In 10%Z (firstn (line_len s) s).
Proof.
  intros H. assert (F := span_firstn not_newline s).
  rewrite Forall_forall in F. apply F in H. discriminate.
Qed.

Lemma line_end (s : str) : at_line_end (skipn (line_len s) s).
Proof.
  destruct (span_skipn not_newline s) as [H|(c & r & H & Hc)]; [now left|].
  right. exists r. fold (line_len s) in H. rewrite H. f_equal.
  unfold not_newline in Hc. apply negb_false_iff, Z.eqb_eq in Hc. exact Hc.
Qed.

Lemma indent_firstn (s : str) (k : nat) :
  indent_len s = Some k ->
  (forall t, indent_len (firstn k s ++ t) = Some k) /\ ~ In 10%Z (firstn k s).
Proof.
  unfold indent_len.
  destruct (startswith sp4 s) eqn:E.
  - intros [= <-]. apply startswith_split in E. cbn [length sp4] in E.
    rewrite E. rewrite (firstn_app 4 sp4). cbn [length sp4 firstn Nat.sub].
    split.
    + intros t. reflexivity.
    + simpl. intuition discriminate.
  - destruct (startswith [9%Z] s) eqn:F; [|discriminate].
    intros [= <-]. apply startswith_split in F. cbn [length] in F.
    rewrite F. cbn [app firstn]. split.
    + intros t. reflexivity.
    + simpl. intuition discriminate.
Qed.

Lemma indented_line_prefix (s : str) (n : nat) :
  indented_line_len s = Some n ->
  indented_line (firstn n s) /\ at_line_end (skipn n s).
Proof.
  intros H. apply indented_line_len_split in H as (k & Hk & ->).
  destruct (indent_firstn s Hk) as [Hpre Hnl].
  split; [split|].
  - rewrite firstn_add, Hpre. discriminate.
  - rewrite firstn_add. intros Hin. apply in_app_or in Hin as [Hin|Hin];
      [contradiction|]. now apply line_no_newline in Hin.
  - rewrite Nat.add_comm, <- skipn_skipn. apply line_end.
Qed.

Lemma more_lines_prefix :
  forall fuel r,
    length r <= fuel -> at_line_end r ->
    exists lines,
      Forall indented_line lines /\
      firstn (more_lines_len fuel r) r = concat (map (cons 10%Z) lines) /\
      at_block_end (skipn (more_lines_len fuel r) r).
Proof.
  induction fuel as [|fuel IH]; intros r Hlen Hend.
  - destruct r; [|simpl in Hlen; lia].
    exists []. simpl. repeat split; [constructor|now left].
  - destruct Hend as [->|(r' & ->)].
    + exists []. simpl. repeat split; [constructor|now left].
    + cbn [more_lines_len]. rewrite Z.eqb_refl.
      destruct (indented_line_len r') as [n|] eqn:E.
      * destruct (indented_line_prefix _ E) as [Hline Hrest].
        assert (Hlen' : length (skipn (S n) (10%Z :: r')) <= fuel)
          by (rewrite length_skipn; cbn [length] in *; unfold char in *; lia).
        destruct (IH _ Hlen' Hrest) as (lines & Hall & Hfirst & Hblock).
        cbn [skipn] in Hfirst, Hblock. cbn [skipn Nat.add firstn].
        exists (firstn n r' :: lines). split; [now constructor|]. split.
        -- rewrite firstn_add. cbn [map concat app]. f_equal. f_equal.
           exact Hfirst.
        -- rewrite Nat.add_comm, <- skipn_skipn. exact Hblock.
      * exists []. cbn [firstn skipn map concat].
        repeat split; [constructor|].
        right. exists r'. split; [reflexivity|].
        unfold indented_line_len in E. now destruct (indent_len r').
Qed.

Lemma join_lines_cons (l : str) (lines : list str) :
  join_lines (l :: lines) = l ++ concat (map (cons 10%Z) lines).
Proof.
  revert l. induction lines as [|l' lines IH]; intros l.
  - simpl. now rewrite app_nil_r.
  - change (join_lines (l :: l' :: lines))
      with (l ++ 10%Z :: join_lines (l' :: lines)).
    rewrite IH. reflexivity.
Qed.

Lemma block_prefix (s : str) (n : nat) :
  block_len s = Some n ->
  (exists lines,
      lines <> [] /\ Forall indented_line lines /\
      firstn n s = join_lines lines) /\
  at_block_end (skipn n s).
Proof.
  unfold block_len.
  destruct (indented_line_len s) as [n0|] eqn:E; [|discriminate].
  intros [= <-].
  destruct (indented_line_prefix _ E) as [Hline Hrest].
  destruct (@more_lines_prefix (length (skipn n0 s)) (skipn n0 s) (le_n _) Hrest)
    as (lines & Hall & Hfirst & Hblock).
  split.
  - exists (firstn n0 s :: lines).
    split; [discriminate|]. split; [now constructor|].
    now rewrite firstn_add, Hfirst, join_lines_cons.
  - rewrite Nat.add_comm, <- skipn_skipn. exact Hblock.
Qed.

Lemma indented_match_prefix (i : nat) (s : str) (n : nat) :
  indented_match i s = Some n ->
  indented_block (firstn n s) /\ at_block_end (skipn n s).
Proof.
  unfold indented_match.
  destruct (if Nat.eqb i 0 then block_len s else None) as [m|] eqn:E.
  - intros [= <-]. destruct (Nat.eqb i 0); [|discriminate].
    destruct (block_prefix _ E) as [(lines & H1 & H2 & H3) Hend].
    split; [|exact Hend]. exists lines. auto.
  - destruct s as [|c s1]; [discriminate|].
    destruct (c =? 10)%Z eqn:Ec; [|discriminate].
    apply Z.eqb_eq in Ec. subst c.
    destruct (block_len s1) as [m|] eqn:F; [|discriminate].
    intros [= <-].
    destruct (block_prefix _ F) as [(lines & H1 & H2 & H3) Hend].
    split; [|exact Hend]. exists lines.
    split; [exact H1|]. split; [exact H2|].
    right. cbn [firstn]. now rewrite H3.
Qed.

(** What a match of the indented pattern looks like. *)
Lemma match_at_INDENTED_some (i : nat) (s : str) (ma : bool) (st' : mstate) :
  match_at INDENTED i s ma = Some st' ->
  exists m,
    s = m ++ rest st' /\ pos st' = i + length m /\
    indented_block m /\ at_block_end (rest st').
Proof.
  intros H. assert (E := match_at_INDENTED i s ma). rewrite H in E.
  destruct (indented_match i s) as [n|] eqn:En; [|discriminate].
  cbn [option_map] in E. injection E as Hp Hr.
  destruct (indented_match_prefix _ _ En) as [Hblock Hend].
  apply match_at_extends in H as [(k & Hk & Hpos & Hrest) _].
  cbn [pos rest] in *.
  assert (n = k) by lia. subst k.
  exists (firstn n s). rewrite Hr. repeat split.
  - symmetry. apply firstn_skipn.
  - rewrite length_firstn. lia.
  - exact Hblock.
  - exact Hend.
Qed.

Lemma search_INDENTED_block (i : nat) (s : str) (ma : bool) (pre m post : str) :
  search INDENTED i s ma = Some (pre, m, post) -> indented_block m.
Proof.
  intros H.
  destruct (search_some _ _ _ _ H)
    as (_ & (j & ma' & st' & Hmatch & Hm & Hpost) & _).
  destruct (match_at_INDENTED_some _ _ _ Hmatch)
    as (m' & Hs & Hpos & Hblock & _).
  rewrite Hm, Hpos, Hs.
  replace (j + length m' - j) with (length m') by lia.
  now rewrite firstn_app, Nat.sub_diag, firstn_O, app_nil_r, firstn_all.
Qed.

Lemma indented_pass_blocks (text : str) (l : locals) :
  exists blocks,
    code_blocks (snd (sub INDENTED create_placeholder text l))
    = code_blocks l ++ blocks /\
    Forall (fun b => indented_block (content b)) blocks.
Proof.
  unfold sub. apply sub_loop_blocks.
  intros i s ma pre m post. apply search_INDENTED_block.
Qed.

End Indented.

(* ===================================================================== *)
(** * A text that is one protected region *)
(* ===================================================================== *)

Module Whole.
Import Py Re core Spec Aux More ReFacts Patterns Shield ShieldMore Indented.

(** A pass whose pattern matches the whole text at once replaces it by
    one placeholder. *)
Lemma sub_whole (r : regex) (text : str) (l : locals) :
  option_map rest (match_at r 0 text false) = Some [] ->
  (forall i ma, match_at r i [] ma = None) ->
  sub r create_placeholder text l
  = (placeholder_of (placeholder_index l),
     {| code_blocks :=
          code_blocks l
          ++ [ {| placeholder := placeholder_of (placeholder_index l);
                  content := text |} ];
        placeholder_index := placeholder_index l + 1 |}).
Proof.
  intros Hwhole Hempty.
  destruct (match_at r 0 text false) as [st'|] eqn:E; [|discriminate].
  cbn [option_map] in Hwhole. injection Hwhole as Hrest.
  assert (Hpos : pos st' = length text).
  { apply match_at_extends in E as [(k & Hk & Hp & Hr) _]. cbn [pos rest] in *.
    rewrite Hrest in Hr. symmetry in Hr.
    apply (f_equal (@length _)) in Hr. rewrite length_skipn in Hr.
    simpl in Hr. lia. }
  assert (Hsearch : search r 0 text false = Some ([], text, [])).
  { destruct text as [|c t]; cbn [search]; rewrite E, Hrest, Hpos, Nat.sub_0_r;
      now rewrite firstn_all. }
  unfold sub.
  replace (2 * length text + 2) with (S (S (2 * length text))) by lia.
  cbn [sub_loop]. rewrite Hsearch, create_placeholder_eq.
  cbn [search]. rewrite Hempty. now rewrite app_nil_r.
Qed.

Lemma restore_single (text : str) :
  restore [ {| placeholder := placeholder_0; content := text |} ] placeholder_0
  = text.
Proof.
  cbn [restore fold_left placeholder content].
  unfold placeholder_0. simpl. apply app_nil_r.
Qed.

Lemma whole_inline_span (text : str) :
  has_fence text = false ->
  option_map rest (match_at INLINE 0 text false) = Some [] ->
  smart_quote_markdown text = Ok text.
Proof.
  intros Hfence Hwhole. unfold smart_quote_markdown.
  destruct (negb (_has_straight_quotes text)); [reflexivity|].
  unfold pipeline, mask. fold no_blocks.
  rewrite (sub_no_match FENCED create_placeholder text)
    by (now apply search_FENCED_none).
  rewrite (sub_whole INLINE text no_blocks Hwhole)
    by (intros i ma; now apply match_at_INLINE_none).
  change (placeholder_of (placeholder_index no_blocks)) with placeholder_0.
  rewrite (sub_no_match INDENTED create_placeholder placeholder_0)
    by (vm_compute; reflexivity).
  change (convert_to_smart_quotes placeholder_0) with (Ok placeholder_0).
  cbn [bind code_blocks no_blocks app]. f_equal. apply restore_single.
Qed.

Lemma whole_indented_block (text : str) :
  has_fence text = false -> has_inline text = false ->
  option_map rest (match_at INDENTED 0 text false) = Some [] ->
  smart_quote_markdown text = Ok text.
Proof.
  intros Hfence Hinline Hwhole. unfold smart_quote_markdown.
  destruct (negb (_has_straight_quotes text)); [reflexivity|].
  unfold pipeline, mask. fold no_blocks.
  rewrite (sub_no_match FENCED create_placeholder text)
    by (now apply search_FENCED_none).
  rewrite (sub_no_match INLINE create_placeholder text)
    by (now apply search_INLINE_none).
  rewrite (sub_whole INDENTED text no_blocks Hwhole)
    by (intros i ma; apply match_at_INDENTED_none;
        unfold indented_match; now destruct (Nat.eqb i 0)).
  change (placeholder_of (placeholder_index no_blocks)) with placeholder_0.
  change (convert_to_smart_quotes placeholder_0) with (Ok placeholder_0).
  cbn [bind code_blocks no_blocks app]. f_equal. apply restore_single.
Qed.

End Whole.

(* ===================================================================== *)
(** * After the indented pass *)
(* ===================================================================== *)

Module IndentedClean.
Import Py Re core Spec Aux More ReFacts Patterns Shield ShieldMore Indented.

Lemma sp4_within (pre B : str) (p : char) :
  startswith sp4 (pre ++ p :: B) = true -> p <> 32%Z ->
  startswith sp4 pre = true.
Proof.
  intros H Hp.
  assert (E32 : (32 =? p)%Z = false) by (apply Z.eqb_neq; congruence).
  unfold sp4 in *.
  destruct pre as [|a [|b [|c [|d pre]]]]; cbn [app startswith] in *;
    rewrite ?E32, ?andb_false_r in H; try discriminate.
  exact H.
Qed.

Lemma tab_within (pre B : str) (p : char) :
  startswith [9%Z] (pre ++ p :: B) = true -> p <> 9%Z ->
  exists pre', pre = 9%Z :: pre'.
Proof.
  intros H Hp. destruct pre as [|a pre]; cbn [app startswith] in H;
    apply andb_true_iff in H as [H _]; apply Z.eqb_eq in H.
  - congruence.
  - subst a. eauto.
Qed.

(** An indentation that is found although a character that cannot belong
    to it follows [pre] lies within [pre]. *)
Lemma indent_len_within (pre B : str) (p : char) (k : nat) :
  indent_len (pre ++ p :: B) = Some k -> p <> 32%Z -> p <> 9%Z ->
  forall C, indent_len (pre ++ C) = Some k.
Proof.
  intros H H32 H9 C. unfold indent_len in *.
  destruct (startswith sp4 (pre ++ p :: B)) eqn:E4.
  - apply sp4_within in E4; [|exact H32].
    now rewrite (startswith_app_l _ _ C E4).
  - destruct (startswith [9%Z] (pre ++ p :: B)) eqn:E9; [|discriminate].
    apply tab_within in E9 as [pre' ->]; [|exact H9].
    exact H.
Qed.

Lemma no_newline_indent_after (a b : str) :
  ~ In 10%Z a -> indent_after_newline (a ++ b) = indent_after_newline b.
Proof.
  induction a as [|x a IH]; intros H; [reflexivity|].
  cbn [app indent_after_newline].
  replace (x =? 10)%Z with false
    by (symmetry; apply Z.eqb_neq; intros ->; apply H; now left).
  cbn [andb orb]. apply IH. intros Hin. apply H. now right.
Qed.

(** In the text before a match no line is indented, and it stays so when
    the match is replaced by something that begins with [<]. *)
Lemma indent_after_newline_before (pre A B : str) :
  (forall pre1 pre2,
      pre = pre1 ++ pre2 -> pre2 <> [] ->
      match pre2 with
      | c :: s1 => (c =? 10)%Z && is_some (indent_len (s1 ++ A))
      | [] => false
      end = false) ->
  indent_after_newline (pre ++ 60%Z :: B) = indent_after_newline (60%Z :: B).
Proof.
  induction pre as [|x pre IH]; intros H; [reflexivity|].
  cbn [app indent_after_newline].
  rewrite IH.
  - assert (Hx := H [] (x :: pre) eq_refl). cbn beta iota in Hx.
    specialize (Hx ltac:(discriminate)).
    destruct (x =? 10)%Z; [|reflexivity]. cbn [andb] in *.
    destruct (indent_len (pre ++ 60%Z :: B)) as [k|] eqn:E; [|reflexivity].
    rewrite (indent_len_within pre B E) in Hx by discriminate.
    discriminate.
  - intros pre1 pre2 E Hne. apply (H (x :: pre1) pre2); [|exact Hne].
    now rewrite E.
Qed.

Lemma indented_loop_clean :
  forall fuel i s ma l,
    measure s ma <= fuel ->
    (Nat.eqb i 0
     && is_some (indent_len
                   (fst (sub_loop INDENTED create_placeholder fuel i s ma l)))
     || indent_after_newline
          (fst (sub_loop INDENTED create_placeholder fuel i s ma l))) = false.
Proof.
  induction fuel as [|fuel IH]; intros i s ma l Hm.
  - unfold measure in Hm. destruct ma; lia.
  - cbn [sub_loop].
    destruct (search INDENTED i s ma) as [[[pre m] post]|] eqn:E.
    + assert (Hdec := search_measure _ _ _ _ E).
      destruct (search_some _ _ _ _ E) as (Hs & _ & Hpre).
      rewrite create_placeholder_eq.
      set (l1 := {| code_blocks := _; placeholder_index := _ |}).
      specialize (IH (i + length pre + length m) post
                     (Nat.eqb (length m) 0) l1).
      destruct (sub_loop INDENTED create_placeholder fuel _ post _ l1)
        as [tail l2].
      cbn [fst] in *.
      assert (Htail : indent_after_newline tail = false).
      { specialize (IH ltac:(lia)). now apply orb_false_iff in IH. }
      assert (Hph : exists p, placeholder_of (placeholder_index l) = 60%Z :: p)
        by (eexists; reflexivity).
      destruct Hph as [p Hp].
      assert (Hnl : ~ In 10%Z (placeholder_of (placeholder_index l)))
        by (apply placeholder_of_lacks; simpl; tauto).
      assert (Hbefore :
                forall pre1 pre2,
                  pre = pre1 ++ pre2 -> pre2 <> [] ->
                  match pre2 with
                  | c :: s1 => (c =? 10)%Z && is_some (indent_len (s1 ++ m ++ post))
                  | [] => false
                  end = false).
      { intros pre1 pre2 Ep Hne.
        destruct (Hpre pre1 pre2 Ep Hne) as (j & ma' & Hnone).
        apply match_at_INDENTED_none, indented_match_none in Hnone.
        apply orb_false_iff in Hnone as [_ Hnone].
        destruct pre2 as [|c s1]; [reflexivity|exact Hnone]. }
      apply orb_false_iff. split.
      * destruct (Nat.eqb i 0) eqn:Ei; [|reflexivity]. cbn [andb].
        destruct pre as [|x pre'].
        -- cbn [app]. rewrite Hp. reflexivity.
        -- destruct (indent_len ((x :: pre') ++ placeholder_of (placeholder_index l) ++ tail))
             as [k|] eqn:Ek; [|reflexivity].
           rewrite Hp in Ek. cbn [app] in Ek.
           change (x :: pre' ++ 60%Z :: p ++ tail)
             with ((x :: pre') ++ 60%Z :: p ++ tail) in Ek.
           assert (Hk := indent_len_within (x :: pre') (p ++ tail) Ek
                           ltac:(discriminate) ltac:(discriminate) (m ++ post)).
           rewrite <- Hs in Hk.
           (* the search began at offset 0 and found nothing there *)
           exfalso.
           assert (Hno0 : match_at INDENTED i s ma = None).
           { destruct s as [|c s0]; cbn [search] in E;
               destruct (match_at INDENTED i _ ma) eqn:F; try reflexivity;
               injection E as E1 _ _; discriminate. }
           apply match_at_INDENTED_none, indented_match_none in Hno0.
           rewrite Ei, Hk in Hno0. discriminate.
      * rewrite Hp. cbn [app].
        etransitivity;
          [apply (@indent_after_newline_before pre (m ++ post) (p ++ tail) Hbefore)|].
        change (60%Z :: p ++ tail) with ((60%Z :: p) ++ tail).
        rewrite <- Hp. now rewrite no_newline_indent_after.
    + cbn [fst]. now apply search_INDENTED_none in E.
Qed.

Lemma indented_pass_clean (text : str) (l : locals) :
  has_indented (fst (sub INDENTED create_placeholder text l)) = false.
Proof.
  unfold has_indented.
  apply (@indented_loop_clean (2 * length text + 2) 0 text false l).
  unfold measure. lia.
Qed.

End IndentedClean.

(* ===================================================================== *)
(** * Prose around one inline span *)
(* ===================================================================== *)

Module OneSpan.
Import Py Re core Spec Aux More ReFacts Patterns Shield ShieldMore Indented
       IndentedClean DirectorMore.

(** ** The Director on plain characters *)

Lemma emit_all_plain (s : str) :
  forall p, ~ In 34%Z s -> ~ In 39%Z s -> emit_all p s = s.
Proof.
  induction s as [|c s IH]; intros p H1 H2; [reflexivity|].
  cbn [emit_all]. unfold emit_prev.
  replace (c =? 34)%Z with false
    by (symmetry; apply Z.eqb_neq; intros ->; apply H1; now left).
  replace (c =? 39)%Z with false
    by (symmetry; apply Z.eqb_neq; intros ->; apply H2; now left).
  f_equal. apply IH; intros Hin; [apply H1|apply H2]; now right.
Qed.

Lemma emit_all_length (s : str) : forall p, length (emit_all p s) = length s.
Proof. induction s as [|c s IH]; intros p; simpl; [|rewrite IH]; reflexivity. Qed.

Lemma emit_all_same_context (p q : option char) (s : str) :
  opens p = opens q -> emit_all p s = emit_all q s.
Proof.
  intros H. destruct s as [|c s]; [reflexivity|].
  cbn [emit_all]. unfold emit_prev. now rewrite H.
Qed.

Lemma emit_prev_lt (p : option char) (c : char) :
  emit_prev p c = 60%Z -> c = 60%Z.
Proof.
  unfold emit_prev.
  destruct (c =? 34)%Z; [destruct (opens p); discriminate|].
  destruct (c =? 39)%Z; [destruct (opens p); discriminate|].
  auto.
Qed.

Lemma emit_all_no_lt (s : str) :
  forall p, ~ In 60%Z s -> ~ In 60%Z (emit_all p s).
Proof.
  induction s as [|c s IH]; intros p H; [exact H|].
  cbn [emit_all]. intros [E|Hin].
  - apply emit_prev_lt in E. apply H. now left.
  - apply (IH (Some c)); [|exact Hin]. intros Hc. apply H. now right.
Qed.

(** ** Replacing the one occurrence of a placeholder *)

Lemma replace_go_skip (old new : str) :
  forall s r, replace_go old new (length s) (s ++ r) = replace_go old new 0 r.
Proof.
  induction s as [|c s IH]; intros r; [reflexivity|].
  cbn [length app replace_go]. apply IH.
Qed.

Lemma replace_go_other (old new : str) (h : char) (old' : str) :
  old = h :: old' ->
  forall a r, ~ In h a ->
              replace_go old new 0 (a ++ r) = a ++ replace_go old new 0 r.
Proof.
  intros ->. induction a as [|c a IH]; intros r H; [reflexivity|].
  cbn [app replace_go startswith].
  replace (h =? c)%Z with false
    by (symmetry; apply Z.eqb_neq; intros ->; apply H; now left).
  cbn [andb]. f_equal. apply IH. intros Hin. apply H. now right.
Qed.

Lemma replace_one (a b new : str) (h : char) (old' : str) :
  ~ In h a -> ~ In h b ->
  replace (a ++ (h :: old') ++ b) (h :: old') new = a ++ new ++ b.
Proof.
  intros Ha Hb. cbn [replace].
  rewrite (@replace_go_other (h :: old') new h old' eq_refl a) by exact Ha.
  f_equal. cbn [app replace_go].
  pose proof (startswith_app (h :: old') b) as Hs. cbn [app] in Hs.
  rewrite Hs. cbn [length Nat.sub].
  rewrite Nat.sub_0_r, replace_go_skip. f_equal.
  pose proof (@replace_go_other (h :: old') new h old' eq_refl b [] Hb) as Hr.
  rewrite app_nil_r in Hr. rewrite Hr. cbn [replace_go]. apply app_nil_r.
Qed.

(** ** Indentation when a span is replaced by a placeholder *)

Lemma indent_after_newline_suffix (a b : str) :
  indent_after_newline (a ++ b) = false -> indent_after_newline b = false.
Proof.
  induction a as [|x a IH]; intros H; [exact H|].
  cbn [app indent_after_newline] in H.
  apply orb_false_iff in H as [_ H]. now apply IH.
Qed.

Lemma indent_after_newline_parts (a A : str) :
  indent_after_newline (a ++ A) = false ->
  forall a1 a2,
    a = a1 ++ a2 -> a2 <> [] ->
    match a2 with
    | c :: s1 => (c =? 10)%Z && is_some (indent_len (s1 ++ A))
    | [] => false
    end = false.
Proof.
  intros H a1 a2 -> Hne. rewrite <- app_assoc in H.
  apply indent_after_newline_suffix in H.
  destruct a2 as [|c s1]; [reflexivity|].
  cbn [app indent_after_newline] in H. now apply orb_false_iff in H.
Qed.

Lemma masked_no_indent (a m b p : str) :
  has_indented (a ++ (bt :: m) ++ b) = false ->
  ~ In 10%Z (60%Z :: p) ->
  has_indented (a ++ (60%Z :: p) ++ b) = false.
Proof.
  unfold has_indented. intros H Hnl.
  apply orb_false_iff in H as [H1 H2]. apply orb_false_iff. split.
  - destruct (indent_len (a ++ (60%Z :: p) ++ b)) as [k|] eqn:E; [|reflexivity].
    cbn [app] in E.
    rewrite (@indent_len_within a (p ++ b) 60%Z k E
               ltac:(discriminate) ltac:(discriminate) ((bt :: m) ++ b)) in H1.
    discriminate.
  - cbn [app].
    etransitivity;
      [apply (@indent_after_newline_before a ((bt :: m) ++ b) (p ++ b));
       now apply indent_after_newline_parts|].
    change (60%Z :: p ++ b) with ((60%Z :: p) ++ b).
    rewrite no_newline_indent_after by exact Hnl.
    apply (indent_after_newline_suffix (a ++ bt :: m)).
    now rewrite <- app_assoc.
Qed.

(** ** The shield on prose around one span *)

Lemma inline_pass_one_span (text a m b : str) :
  search INLINE 0 text false = Some (a, m, b) -> ~ In bt b ->
  sub INLINE create_placeholder text no_blocks
  = (a ++ placeholder_0 ++ b,
     {| code_blocks := [ {| placeholder := placeholder_0; content := m |} ];
        placeholder_index := 1 |}).
Proof.
  intros Hsearch Hb. unfold sub.
  replace (2 * length text + 2) with (S (S (2 * length text))) by lia.
  cbn [sub_loop]. rewrite Hsearch, create_placeholder_eq.
  assert (Hnone : forall i ma, search INLINE i b ma = None)
    by (intros i ma; apply search_INLINE_none;
        now apply no_backtick_no_inline).
  rewrite Hnone. reflexivity.
Qed.

Lemma one_span (text a m b : str) :
  has_fence text = false ->
  search INLINE 0 text false = Some (a, m, b) ->
  ~ In bt b ->
  has_indented text = false ->
  ~ In 60%Z a -> ~ In 60%Z b ->
  exists full,
    convert_to_smart_quotes text = Ok full /\
    smart_quote_markdown text
    = Ok (firstn (length a) full ++ m ++ skipn (length a + length m) full).
Proof.
  intros Hfence Hsearch Hb Hind Ha60 Hb60.
  assert (Hspan := search_INLINE_span _ _ _ Hsearch).
  destruct Hspan as (n & c & Hn & Hm & _).
  destruct (search_split _ _ _ _ Hsearch) as [Htext _].
  assert (Hlast : last_of (a ++ m) = Some bt).
  { rewrite Hm. destruct n as [|n]; [lia|].
    replace (repeat bt (S n)) with (repeat bt n ++ [bt])
      by (now rewrite <- repeat_cons).
    rewrite !app_assoc. apply Director.last_of_snoc. }
  assert (Hfull : emit_all None text
                  = emit_all None a
                    ++ emit_all (match last_of a with None => None | Some x => Some x end) m
                    ++ emit_all (Some bt) b).
  { rewrite Htext, emit_all_app. f_equal.
    rewrite emit_all_app. f_equal.
    assert (Hlm : exists x, last_of m = Some x).
    { rewrite Hm. destruct n as [|n]; [lia|].
      replace (repeat bt (S n)) with (repeat bt n ++ [bt])
        by (now rewrite <- repeat_cons).
      rewrite !app_assoc. rewrite Director.last_of_snoc. eauto. }
    destruct Hlm as [x Hx]. rewrite Hx.
    assert (x = bt).
    { revert Hx. rewrite Hm. destruct n as [|n]; [lia|].
      replace (repeat bt (S n)) with (repeat bt n ++ [bt])
        by (now rewrite <- repeat_cons).
      rewrite !app_assoc, Director.last_of_snoc. congruence. }
    now subst x. }
  exists (emit_all None text). split; [apply convert_emit_all|].
  rewrite Hfull.
  rewrite firstn_app, emit_all_length, Nat.sub_diag, firstn_O, app_nil_r,
    firstn_all2 by (rewrite emit_all_length; lia).
  rewrite skipn_app, emit_all_length.
  rewrite skipn_all2 by (rewrite emit_all_length; lia).
  replace (length a + length m - length a) with (length m) by lia.
  rewrite (skipn_app (length m)), emit_all_length, Nat.sub_diag.
  rewrite skipn_all2 by (rewrite emit_all_length; lia).
  cbn [app skipn].
  unfold smart_quote_markdown.
  destruct (_has_straight_quotes text) eqn:Eq; cbn [negb].
  - (* the full pipeline *)
    unfold pipeline, mask. fold no_blocks.
    rewrite (sub_no_match FENCED create_placeholder text)
      by (now apply search_FENCED_none).
    rewrite (@inline_pass_one_span text a m b Hsearch Hb).
    assert (Hmasked : has_indented (a ++ placeholder_0 ++ b) = false).
    { destruct n as [|n]; [lia|].
      rewrite Htext, Hm in Hind. cbn [repeat app] in Hind.
      unfold placeholder_0.
      apply (@masked_no_indent a ((repeat bt n ++ c ++ bt :: repeat bt n)) b).
      - rewrite <- Hind. f_equal.
      - vm_compute. intuition discriminate. }
    rewrite indented_pass_no_match by exact Hmasked.
    rewrite convert_emit_all. cbn [bind code_blocks].
    rewrite emit_all_app, (emit_all_app placeholder_0 b).
    rewrite (emit_all_plain placeholder_0)
      by (vm_compute; intuition discriminate).
    change (match last_of placeholder_0 with
            | Some x => Some x
            | None => match last_of a with
                      | Some x => Some x
                      | None => None
                      end
            end) with (Some 62%Z).
    rewrite (@emit_all_same_context (Some 62%Z) (Some bt) b) by reflexivity.
    cbn [restore fold_left placeholder content]. f_equal.
    unfold placeholder_0 at 1 2.
    apply (@replace_one (emit_all None a) (emit_all (Some bt) b) m 60%Z).
    + now apply emit_all_no_lt.
    + now apply emit_all_no_lt.
  - (* the early return: nothing to convert *)
    assert (H34 : ~ In 34%Z text)
      by (intros Hin;
          assert (Ht : _has_straight_quotes text = true)
            by (apply has_straight_quotes_iff; tauto); congruence).
    assert (H39 : ~ In 39%Z text)
      by (intros Hin;
          assert (Ht : _has_straight_quotes text = true)
            by (apply has_straight_quotes_iff; tauto); congruence).
    f_equal. rewrite Htext in H34, H39 |- *.
    rewrite !in_app_iff in H34, H39.
    rewrite !emit_all_plain by tauto. reflexivity.
Qed.

End OneSpan.

(* ===================================================================== *)
(** * What each pass does to the text *)
(* ===================================================================== *)

Module Passes.
Import Py Re core Spec Aux More ReFacts Patterns Shield ShieldMore Indented
       IndentedClean.

(** ** No closed fence after the fenced pass *)

Lemma fenced_pass_no_fence (text : str) (l : locals) :
  has_fence (fst (sub FENCED create_placeholder text l)) = false.
Proof. apply fenced_loop_clean. unfold measure. lia. Qed.

(** ** A pass adds none of the characters a placeholder lacks *)





(** ** A pass replaces its regions from left to right *)

Lemma sub_loop_replaced (r : regex) (Q : str -> Prop) :
  (forall i s ma pre m post, search r i s ma = Some (pre, m, post) -> Q m) ->
  forall fuel i s ma l,
    replaced Q s l
             (fst (sub_loop r create_placeholder fuel i s ma l))
             (snd (sub_loop r create_placeholder fuel i s ma l)).
Proof.
  intros HQ. induction fuel as [|fuel IH]; intros i s ma l.
  - exists [], s. cbn. now rewrite app_nil_r.
  - cbn [sub_loop].
    destruct (search r i s ma) as [[[pre m] post]|] eqn:E.
    + assert (Hm := HQ _ _ _ _ _ _ E).
      apply search_split in E as [-> _].
      rewrite create_placeholder_eq.
      set (b := {| placeholder := placeholder_of (placeholder_index l);
                   content := m |}).
      set (l1 := {| code_blocks := _; placeholder_index := _ |}).
      destruct (IH (i + length pre + length m) post
                   (Nat.eqb (length m) 0) l1)
        as (parts & last & Ht & Ht' & Hb & Hall).
      destruct (sub_loop r create_placeholder fuel _ post _ l1) as [tail l2].
      cbn [fst snd] in *.
      exists ((pre, b) :: parts), last. cbn [weave map snd].
      split; [now rewrite <- Ht|]. split; [now rewrite <- Ht'|].
      split; [|constructor; [exact Hm|exact Hall]].
      rewrite Hb. subst l1. cbn [code_blocks].
      now rewrite <- app_assoc.
    + exists [], s. cbn. now rewrite app_nil_r.
Qed.

Lemma fenced_pass_replaced (text : str) (l : locals) :
  replaced fenced_block text l
           (fst (sub FENCED create_placeholder text l))
           (snd (sub FENCED create_placeholder text l)).
Proof.
  unfold sub. apply sub_loop_replaced.
  intros i s ma pre m post. apply search_FENCED_block.
Qed.

Lemma inline_pass_replaced (text : str) (l : locals) :
  replaced inline_span text l
           (fst (sub INLINE create_placeholder text l))
           (snd (sub INLINE create_placeholder text l)).
Proof.
  unfold sub. apply sub_loop_replaced.
  intros i s ma pre m post. apply search_INLINE_span.
Qed.

Lemma indented_pass_replaced (text : str) (l : locals) :
  replaced indented_block text l
           (fst (sub INDENTED create_placeholder text l))
           (snd (sub INDENTED create_placeholder text l)).
Proof.
  unfold sub. apply sub_loop_replaced.
  intros i s ma pre m post. apply search_INDENTED_block.
Qed.

(** ** A text that begins with two backticks *)

Lemma inline_pass_opening_backticks (s : str) (l : locals) :
  exists m post text' l',
    search INLINE 0 (bt :: bt :: s) false = Some ([], m, post) /\
    inline_span m /\
    sub INLINE create_placeholder (bt :: bt :: s) l
    = (placeholder_of (placeholder_index l) ++ text', l') /\
    nth_error (code_blocks l') (length (code_blocks l))
    = Some {| placeholder := placeholder_of (placeholder_index l);
              content := m |}.
Proof.
  destruct (match_at INLINE 0 (bt :: bt :: s) false) as [st'|] eqn:E.
  - assert (Hsearch : search INLINE 0 (bt :: bt :: s) false
                      = Some ([], firstn (pos st' - 0) (bt :: bt :: s), rest st'))
      by (cbn [search]; now rewrite E).
    set (m := firstn (pos st' - 0) (bt :: bt :: s)) in *.
    exists m, (rest st').
    unfold sub.
    replace (2 * length (bt :: bt :: s) + 2)
      with (S (2 * length (bt :: bt :: s) + 1)) by lia.
    cbn [sub_loop]. rewrite Hsearch, create_placeholder_eq.
    set (l1 := {| code_blocks := _; placeholder_index := _ |}).
    destruct (sub_loop_blocks INLINE (fun _ => True)
                (fun _ _ _ _ _ _ _ => I)
                (2 * length (bt :: bt :: s) + 1)
                (0 + length (@nil char) + length m) (rest st')
                (Nat.eqb (length m) 0) l1) as (new & Hnew & _).
    destruct (sub_loop INLINE create_placeholder _ _ (rest st') _ l1)
      as [tail l2].
    cbn [snd] in Hnew.
    exists tail, l2. split; [reflexivity|].
    split; [exact (search_INLINE_span _ _ _ Hsearch)|].
    split; [reflexivity|].
    rewrite Hnew. subst l1. cbn [code_blocks].
    rewrite <- app_assoc, nth_error_app2 by lia.
    now rewrite Nat.sub_diag.
  - apply match_at_INLINE_none in E.
    now rewrite inline_at_two_backticks in E.
Qed.

(** ** Where an indented block stands *)

Lemma indented_match_anchor (i : nat) (s : str) (n : nat) :
  indented_match i s = Some n -> indented_block_at i (firstn n s).
Proof.
  unfold indented_match.
  destruct (Nat.eqb i 0) eqn:Ei.
  - apply Nat.eqb_eq in Ei.
    destruct (block_len s) as [m|] eqn:E.
    + intros [= <-].
      destruct (block_prefix _ E) as [(lines & H1 & H2 & H3) _].
      exists lines. split; [exact H1|]. split; [exact H2|]. left. now split.
    + destruct s as [|c s1]; [discriminate|].
      destruct (c =? 10)%Z eqn:Ec; [|discriminate].
      apply Z.eqb_eq in Ec. subst c.
      destruct (block_len s1) as [m|] eqn:F; [|discriminate].
      intros [= <-].
      destruct (block_prefix _ F) as [(lines & H1 & H2 & H3) _].
      exists lines. split; [exact H1|]. split; [exact H2|].
      right. cbn [firstn]. now rewrite H3.
  - destruct s as [|c s1]; [discriminate|].
    destruct (c =? 10)%Z eqn:Ec; [|discriminate].
    apply Z.eqb_eq in Ec. subst c.
    destruct (block_len s1) as [m|] eqn:F; [|discriminate].
    intros [= <-].
    destruct (block_prefix _ F) as [(lines & H1 & H2 & H3) _].
    exists lines. split; [exact H1|]. split; [exact H2|].
    right. cbn [firstn]. now rewrite H3.
Qed.

Lemma match_at_INDENTED_anchored (i : nat) (s : str) (ma : bool)
      (st' : mstate) :
  match_at INDENTED i s ma = Some st' ->
  exists m,
    s = m ++ rest st' /\ pos st' = i + length m /\
    indented_block_at i m /\ at_block_end (rest st').
Proof.
  intros H. assert (E := match_at_INDENTED i s ma). rewrite H in E.
  destruct (indented_match i s) as [n|] eqn:En; [|discriminate].
  cbn [option_map] in E. injection E as Hp Hr.
  destruct (indented_match_prefix _ _ En) as [_ Hend].
  assert (Hblock := indented_match_anchor _ _ En).
  apply match_at_extends in H as [(k & Hk & Hpos & Hrest) _].
  cbn [pos rest] in *.
  assert (n = k) by lia. subst k.
  exists (firstn n s). rewrite Hr. repeat split.
  - symmetry. apply firstn_skipn.
  - rewrite length_firstn. lia.
  - exact Hblock.
  - exact Hend.
Qed.

End Passes.

(* ===================================================================== *)
(** * The properties of the public functions *)
(* ===================================================================== *)

Import Py Re core Spec Aux More.

(** C1.  For every text, [convert_to_smart_quotes] returns, and at every
    position [i] its output holds exactly the character the per-character
    rules of the specification give for the window of [i]: the previous
    character (none at [i = 0]), the current one, the next one (none at
    the end) and the start flag [i = 0].  Beyond the end of the text the
    output has no character either. *)
Theorem C1_director_follows_rules (text : str) :
  exists out,
    convert_to_smart_quotes text = Ok out /\
    forall i,
      nth_error out i
      = option_map
          (fun cur => emit (prev_of text i) cur (next_of text i) (is_start_of i))
          (nth_error text i).
Proof. apply Director.convert_pointwise. Qed.

(** C2.  For every text the output of [convert_to_smart_quotes] has zero
    occurrences of U+0022 and zero occurrences of U+0027. *)
Theorem C2_output_has_no_straight_quote (text : str) :
  exists out,
    convert_to_smart_quotes text = Ok out /\
    count_occ Z.eq_dec out 34%Z = 0 /\
    count_occ Z.eq_dec out 39%Z = 0.
Proof.
  destruct (Director.convert_pointwise text) as (out & H & _).
  exists out. split; [exact H|].
  destruct (Director.convert_output_clean _ H) as [H1 H2].
  split; now apply count_occ_not_In.
Qed.

(** C3.  For every text, [convert_to_smart_quotes] returns a string of
    the length of the text, in which every character of the text that is
    neither U+0022 nor U+0027 stands unchanged at its position. *)
Theorem C3_length_and_other_characters_kept (text : str) :
  exists out,
    convert_to_smart_quotes text = Ok out /\
    length out = length text /\
    forall i c,
      nth_error text i = Some c -> c <> 34%Z -> c <> 39%Z ->
      nth_error out i = Some c.
Proof.
  destruct (Director.convert_pointwise text) as (out & H & Hn).
  exists out. split; [exact H|]. split; [now apply Director.convert_length|].
  intros i c Hi H1 H2. rewrite Hn, Hi. simpl.
  now rewrite Director.emit_other.
Qed.

Lemma C3_length_and_other_characters_kept_witness :
  exists out,
    convert_to_smart_quotes (lit "it" ++ [39%Z] ++ lit "s") = Ok out /\
    length out = 4 /\ nth_error out 3 = Some 115%Z.
Proof.
  destruct (C3_length_and_other_characters_kept (lit "it" ++ [39%Z] ++ lit "s"))
    as (out & H1 & H2 & H3).
  exists out. split; [exact H1|]. split; [exact H2|].
  apply H3; [reflexivity | discriminate | discriminate].
Defined.

(** C4.  A text with neither U+0022 nor U+0027 is returned unchanged by
    [convert_to_smart_quotes] and by [smart_quote_markdown]. *)
Theorem C4_identity_without_straight_quotes (text : str) :
  ~ In 34%Z text -> ~ In 39%Z text ->
  convert_to_smart_quotes text = Ok text /\
  smart_quote_markdown text = Ok text.
Proof.
  intros H1 H2. split; [now apply Director.convert_identity|].
  unfold smart_quote_markdown.
  now rewrite Director.has_straight_quotes_false.
Qed.

Lemma C4_identity_without_straight_quotes_witness :
  convert_to_smart_quotes (lit "No quotes here") = Ok (lit "No quotes here") /\
  smart_quote_markdown (lit "No quotes here") = Ok (lit "No quotes here").
Proof.
  apply C4_identity_without_straight_quotes;
    (intros H; vm_compute in H; intuition discriminate).
Defined.

(** C10.  [convert_to_smart_quotes] is idempotent: applied to its own
    output it returns that output. *)
Theorem C10_convert_idempotent (text : str) :
  exists out,
    convert_to_smart_quotes text = Ok out /\
    convert_to_smart_quotes out = Ok out.
Proof.
  destruct (Director.convert_pointwise text) as (out & H & _).
  exists out. split; [exact H|].
  destruct (Director.convert_output_clean _ H) as [H1 H2].
  now apply Director.convert_identity.
Qed.

(** C5.  The specification has a text made only of protected regions
    returned unchanged by [smart_quote_markdown].  The code does not: the
    text below is one indented code block (the indented pattern matches
    all of it), yet the function returns it with the inline span inside
    replaced by a placeholder, which is not the input.  The restore loop
    visits the blocks in the order they were recorded, so the placeholder
    of the span, hidden in the content of the block recorded after it, is
    looked for too early.  (A single fenced block is returned unchanged:
    [Examples.single_fence_unchanged].) *)
Theorem C5_nested_placeholder_is_not_restored :
  option_map rest (match_at INDENTED 0 indented_with_inline false) = Some [] /\
  smart_quote_markdown indented_with_inline
  = Ok (lit "    say " ++ placeholder_0 ++ lit " " ++ dq ++ lit "now" ++ dq) /\
  smart_quote_markdown indented_with_inline <> Ok indented_with_inline.
Proof.
  split; [vm_compute; reflexivity|].
  split; [vm_compute; reflexivity|].
  vm_compute. discriminate.
Qed.







(** C8, as the code has it.  Both functions return for every text, the
    empty one included; the two bounds on the loops of the matcher are
    never what stops them (more fuel gives the same result).  Where the
    fence that begins a text has no closing fence the fenced pattern does
    not match there, and a text without any closed fence passes the
    fenced pass unchanged; where no opener of backticks that begins a
    text occurs again after itself the inline pattern does not match
    there, and a text without any such opener passes the inline pass
    unchanged.  But an opener that lacks its closing delimiter is not
    always left to the prose: a text that begins with two or more
    backticks, an unterminated fence included, always has a match of the
    inline pattern at its start, and the inline pass replaces that span,
    which begins at the first backtick, by a placeholder and records
    it. *)
Theorem C8_total_and_unmatched_openers :
  (forall text, exists out, convert_to_smart_quotes text = Ok out) /\
  (forall text, exists out, smart_quote_markdown text = Ok out) /\
  (forall r text l extra,
      sub_loop r create_placeholder (2 * length text + 2 + extra) 0 text false l
      = sub r create_placeholder text l) /\
  (forall greedy r st extra,
      iterate greedy (run r) (length (rest st) + extra) st = run (Star greedy r) st) /\
  (forall i s ma, fenced_at s = false -> match_at FENCED i s ma = None) /\
  (forall text l,
      has_fence text = false ->
      sub FENCED create_placeholder text l = (text, l)) /\
  (forall i s ma, inline_at s = false -> match_at INLINE i s ma = None) /\
  (forall text l,
      has_inline text = false ->
      sub INLINE create_placeholder text l = (text, l)) /\
  (forall s l,
      exists m post text' l',
        search INLINE 0 (bt :: bt :: s) false = Some ([], m, post) /\
        inline_span m /\
        sub INLINE create_placeholder (bt :: bt :: s) l
        = (placeholder_of (placeholder_index l) ++ text', l') /\
        nth_error (code_blocks l') (length (code_blocks l))
        = Some {| placeholder := placeholder_of (placeholder_index l);
                  content := m |}).
Proof.
  repeat split.
  - intros text. rewrite Director.convert_eq_walk. eauto.
  - apply Shield.smart_quote_markdown_returns.
  - intros r text l extra. apply ReFacts.sub_enough.
  - intros greedy r st extra. apply ReFacts.iterate_enough.
  - intros i s ma. apply Shield.match_at_FENCED_none.
  - intros text l H. apply Shield.sub_no_match.
    now apply Shield.search_FENCED_none.
  - intros i s ma. apply Shield.match_at_INLINE_none.
  - intros text l H. apply Shield.sub_no_match.
    now apply Shield.search_INLINE_none.
  - apply Passes.inline_pass_opening_backticks.
Qed.

Lemma C8_total_and_unmatched_openers_witness :
  match_at FENCED 0 (lit "```code") false = None /\
  sub FENCED create_placeholder unterminated_fence no_blocks
  = (unterminated_fence, no_blocks) /\
  match_at INLINE 0 (lit "`code") false = None /\
  sub INLINE create_placeholder (lit "a ` b") no_blocks
  = (lit "a ` b", no_blocks).
Proof.
  destruct C8_total_and_unmatched_openers
    as (_ & _ & _ & _ & H1 & H2 & H3 & H4 & _).
  split; [apply H1; reflexivity|].
  split; [apply H2; reflexivity|].
  split; [apply H3; reflexivity|].
  apply H4; reflexivity.
Defined.

(** C8, as the specification states it, fails.  The text below begins
    with a fence and holds no closing fence, yet a protected region is
    matched at that fence: the inline pattern takes its first two
    backticks as an opener, closed by the two backticks that end the
    text.  The backticks of the fence do not stay in the text given to
    the conversion, and the quotes after them are returned straight,
    where the conversion of the text would have turned them. *)
Lemma C8_unterminated_fence_is_masked :
  startswith bt3 open_fence_over_quotes = true /\
  has_fence open_fence_over_quotes = false /\
  match_at INLINE 0 open_fence_over_quotes false
  = Some {| pos := 10; rest := []; groups := [(1, [bt; bt])] |} /\
  mask open_fence_over_quotes
  = (placeholder_0,
     {| code_blocks := [ {| placeholder := placeholder_0;
                            content := open_fence_over_quotes |} ];
        placeholder_index := 1 |}) /\
  smart_quote_markdown open_fence_over_quotes
  = Ok open_fence_over_quotes /\
  convert_to_smart_quotes open_fence_over_quotes
  = Ok (lit "``` " ++ ldq ++ lit "x" ++ rdq ++ lit " ``") /\
  ~ (forall text,
        startswith bt3 text = true -> has_fence text = false ->
        startswith bt3 (fst (mask text)) = true).
Proof.
  split; [reflexivity|]. split; [reflexivity|].
  split; [vm_compute; reflexivity|]. split; [vm_compute; reflexivity|].
  split; [vm_compute; reflexivity|]. split; [vm_compute; reflexivity|].
  intros H.
  assert (E := H open_fence_over_quotes eq_refl eq_refl).
  vm_compute in E. discriminate.
Qed.


(* ===================================================================== *)
(** * Further properties of the code *)
(* ===================================================================== *)

Import More.

(** X1.  In [convert_to_smart_quotes] the character put at a position is
    decided by the previous and the current character alone: a straight
    quote becomes the left quote of its kind when it begins the text or
    follows one of the ten characters of the opening context, and the
    right one otherwise.  The next character, the apostrophe test and
    the opposite-quote test never change the outcome. *)
Theorem X1_direction_from_previous_character (text : str) :
  exists out,
    convert_to_smart_quotes text = Ok out /\
    forall i,
      nth_error out i
      = option_map (emit_prev (prev_of text i)) (nth_error text i).
Proof.
  exists (emit_all None text). split; [apply DirectorMore.convert_emit_all|].
  intros i. rewrite DirectorMore.emit_all_nth. now destruct i.
Qed.

(** X2.  The conversion splits at every character of the opening context
    (a blank, a tab, a newline, a carriage return, a left bracket, a left
    smart quote): the text before it and the text after it are converted
    on their own and the character itself is kept. *)
Theorem X2_convert_splits_at_opening_context (a b : str) (x : char) :
  In x opening_context_set ->
  exists oa ob,
    convert_to_smart_quotes a = Ok oa /\
    convert_to_smart_quotes b = Ok ob /\
    convert_to_smart_quotes (a ++ x :: b) = Ok (oa ++ x :: ob).
Proof.
  intros Hx.
  assert (H : opens (Some x) = true).
  { cbn [opens]. apply existsb_exists. exists x. split; [exact Hx|].
    apply Z.eqb_refl. }
  exists (emit_all None a), (emit_all None b).
  rewrite !DirectorMore.convert_emit_all. repeat split.
  rewrite <- DirectorMore.convert_emit_all.
  now apply DirectorMore.convert_split.
Qed.

Lemma X2_convert_splits_at_opening_context_witness :
  exists oa ob,
    convert_to_smart_quotes (sq ++ lit "a" ++ sq) = Ok oa /\
    convert_to_smart_quotes (dq ++ lit "b" ++ dq) = Ok ob /\
    convert_to_smart_quotes ((sq ++ lit "a" ++ sq) ++ 32%Z :: (dq ++ lit "b" ++ dq))
    = Ok (oa ++ 32%Z :: ob).
Proof.
  apply X2_convert_splits_at_opening_context. simpl. tauto.
Defined.

(** X3.  What is converted is never revised by what follows: the
    conversion of a text begins with the conversion of each of its
    prefixes, and goes on with one character for every further one. *)
Theorem X3_convert_of_prefix_is_prefix (a b : str) :
  exists oa r,
    convert_to_smart_quotes a = Ok oa /\
    convert_to_smart_quotes (a ++ b) = Ok (oa ++ r) /\
    length r = length b.
Proof.
  exists (emit_all None a),
         (emit_all (match last_of a with None => None | Some x => Some x end) b).
  rewrite !DirectorMore.convert_emit_all, DirectorMore.emit_all_app.
  repeat split.
  generalize (match last_of a with None => None | Some x => Some x end).
  induction b as [|c b IH]; intros p; [reflexivity|].
  simpl. now rewrite IH.
Qed.

(** X4.  The three passes number the placeholders as the blocks are
    discovered: after masking, the index equals the number of blocks,
    the block of rank [j] carries the placeholder of [j], and no two
    blocks carry the same placeholder. *)
Theorem X4_placeholders_numbered_and_distinct (text : str) :
  placeholder_index (snd (mask text)) = length (code_blocks (snd (mask text))) /\
  (forall j b, nth_error (code_blocks (snd (mask text))) j = Some b ->
               placeholder b = placeholder_of j) /\
  NoDup (map placeholder (code_blocks (snd (mask text)))).
Proof.
  destruct (ShieldMore.mask_numbered text) as [H1 H2].
  split; [exact H1|]. split; [exact H2|].
  apply ShieldMore.numbered_nodup. now split.
Qed.

(** X5.  A placeholder is made of [<], [>], [_], capital letters and
    digits only; so no pass finds a region in it and the Director
    returns it unchanged. *)
Theorem X5_placeholder_is_inert (group0 : str) (l : locals) :
  let p := fst (create_placeholder group0 l) in
  Forall (fun c => placeholder_char c = true) p /\
  search FENCED 0 p false = None /\
  search INLINE 0 p false = None /\
  search INDENTED 0 p false = None /\
  convert_to_smart_quotes p = Ok p.
Proof.
  rewrite ShieldMore.create_placeholder_eq. cbn [fst].
  set (j := placeholder_index l).
  assert (Hbt : ~ In bt (placeholder_of j))
    by (apply ShieldMore.placeholder_of_lacks; simpl; tauto).
  split; [apply ShieldMore.placeholder_of_chars|].
  split; [apply Shield.search_FENCED_none;
          now apply ShieldMore.no_backtick_no_fence|].
  split; [apply Shield.search_INLINE_none;
          now apply ShieldMore.no_backtick_no_inline|].
  split; [apply Indented.search_INDENTED_none;
          apply ShieldMore.placeholder_no_indent|].
  apply ShieldMore.placeholder_converted.
Qed.

(** X6.  The three passes run in the order fenced, inline, indented,
    each on the text and the variables the one before left.  Every pass
    replaces, from left to right, regions of its own shape by
    placeholders and records them in this order after the blocks already
    recorded; and it leaves no region of its kind: no fence with a
    closing fence after the fenced pass, at most one backtick after the
    inline pass, no indented line after the indented pass. *)
Theorem X6_blocks_in_pass_order (text : str) :
  exists t1 l1 t2 l2 t3 l3,
    mask text = (t3, l3) /\
    replaced fenced_block text no_blocks t1 l1 /\
    has_fence t1 = false /\
    replaced inline_span t1 l1 t2 l2 /\
    count_occ Z.eq_dec t2 bt <= 1 /\
    replaced indented_block t2 l2 t3 l3 /\
    has_indented t3 = false.
Proof.
  set (r1 := sub FENCED create_placeholder text no_blocks).
  set (r2 := sub INLINE create_placeholder (fst r1) (snd r1)).
  set (r3 := sub INDENTED create_placeholder (fst r2) (snd r2)).
  exists (fst r1), (snd r1), (fst r2), (snd r2), (fst r3), (snd r3).
  split; [rewrite Shield.mask_passes; fold r1 r2 r3; now destruct r3|].
  split; [apply Passes.fenced_pass_replaced|].
  split; [apply Passes.fenced_pass_no_fence|].
  split; [apply Passes.inline_pass_replaced|].
  split; [apply ShieldMore.inline_pass_backticks|].
  split; [apply Passes.indented_pass_replaced|].
  apply IndentedClean.indented_pass_clean.
Qed.

(** X7.  The inline pass leaves one backtick at most in the text, and no
    later pass adds one: the text given to the Director holds at most one
    backtick. *)
Theorem X7_at_most_one_backtick_left (text : str) (l : locals) :
  count_occ Z.eq_dec (fst (sub INLINE create_placeholder text l)) bt <= 1 /\
  count_occ Z.eq_dec (fst (mask text)) bt <= 1.
Proof.
  split; [apply ShieldMore.inline_pass_backticks|].
  rewrite Shield.mask_passes.
  eapply Nat.le_trans; [apply ShieldMore.sub_backticks|].
  apply ShieldMore.inline_pass_backticks.
Qed.

(** X8.  A match of the indented pattern at offset [i] is a block of
    indented lines that stands after a newline, which the match takes in,
    unless the block begins the text ([i = 0]); and it is as long as can
    be: it ends with the text, or before a newline whose line is not
    indented. *)
Theorem X8_indented_match_is_maximal_block
        (i : nat) (s : str) (ma : bool) (st' : mstate) :
  match_at INDENTED i s ma = Some st' ->
  exists m,
    s = m ++ rest st' /\ pos st' = i + length m /\
    indented_block_at i m /\ at_block_end (rest st').
Proof. apply Passes.match_at_INDENTED_anchored. Qed.

Lemma X8_indented_match_is_maximal_block_witness :
  exists m,
    nl ++ lit "    a" ++ nl ++ [9%Z] ++ lit "b" ++ nl ++ lit "c"
    = m ++ (nl ++ lit "c") /\
    12 = 3 + length m /\ indented_block_at 3 m /\ at_block_end (nl ++ lit "c").
Proof.
  apply (@X8_indented_match_is_maximal_block
           3 (nl ++ lit "    a" ++ nl ++ [9%Z] ++ lit "b" ++ nl ++ lit "c") false
           {| pos := 12; rest := nl ++ lit "c";
              groups := [(1%nat, lit "    a" ++ nl ++ [9%Z] ++ lit "b")] |}).
  vm_compute. reflexivity.
Defined.

(** X9.  After the indented pass no line of the text is indented (so
    none is in the text given to the Director), and a text none of whose
    lines is indented passes it unchanged. *)
Theorem X9_indented_pass_complete (text : str) (l : locals) :
  has_indented (fst (sub INDENTED create_placeholder text l)) = false /\
  has_indented (fst (mask text)) = false /\
  (has_indented text = false ->
   sub INDENTED create_placeholder text l = (text, l)).
Proof.
  split; [apply IndentedClean.indented_pass_clean|].
  split; [rewrite Shield.mask_passes; apply IndentedClean.indented_pass_clean|].
  apply Indented.indented_pass_no_match.
Qed.

Lemma X9_indented_pass_complete_witness :
  sub INDENTED create_placeholder (lit "a  b" ++ nl ++ lit "  c") no_blocks
  = (lit "a  b" ++ nl ++ lit "  c", no_blocks).
Proof.
  apply (X9_indented_pass_complete (lit "a  b" ++ nl ++ lit "  c") no_blocks).
  reflexivity.
Defined.

(** X10.  On a text without a backtick and without an indented line
    [smart_quote_markdown] is [convert_to_smart_quotes]. *)
Theorem X10_prose_only_is_director (text : str) :
  ~ In bt text -> has_indented text = false ->
  smart_quote_markdown text = convert_to_smart_quotes text.
Proof. apply Indented.prose_only. Qed.

Lemma X10_prose_only_is_director_witness :
  smart_quote_markdown (lit "He said " ++ dq ++ lit "yes" ++ dq)
  = convert_to_smart_quotes (lit "He said " ++ dq ++ lit "yes" ++ dq).
Proof.
  apply X10_prose_only_is_director.
  - intros H. vm_compute in H. intuition discriminate.
  - reflexivity.
Defined.

(** X11.  A text that is one fenced block, whose closing fence is the
    first fence after the opening one, is returned unchanged whatever
    its content. *)
Theorem X11_single_fenced_block_unchanged (c : str) :
  index_of bt3 (c ++ bt3) = Some (length c) ->
  smart_quote_markdown (bt3 ++ c ++ bt3) = Ok (bt3 ++ c ++ bt3).
Proof. apply Examples.single_fence_unchanged. Qed.

Lemma X11_single_fenced_block_unchanged_witness :
  smart_quote_markdown (bt3 ++ (nl ++ lit "x = " ++ dq ++ lit "`y`" ++ dq ++ nl) ++ bt3)
  = Ok (bt3 ++ (nl ++ lit "x = " ++ dq ++ lit "`y`" ++ dq ++ nl) ++ bt3).
Proof.
  apply X11_single_fenced_block_unchanged. reflexivity.
Defined.

(** X12.  A text without a closed fence that is, as a whole, one inline
    span is returned unchanged whatever its content. *)
Theorem X12_single_inline_span_unchanged (text : str) :
  has_fence text = false ->
  option_map rest (match_at INLINE 0 text false) = Some [] ->
  smart_quote_markdown text = Ok text.
Proof. apply Whole.whole_inline_span. Qed.

Lemma X12_single_inline_span_unchanged_witness :
  smart_quote_markdown (lit "``say " ++ dq ++ lit "`hi`" ++ dq ++ lit "``")
  = Ok (lit "``say " ++ dq ++ lit "`hi`" ++ dq ++ lit "``").
Proof.
  apply X12_single_inline_span_unchanged; vm_compute; reflexivity.
Defined.

(** X13.  A text without a closed fence and without an inline span that
    is, as a whole, one indented block is returned unchanged whatever
    its content. *)
Theorem X13_single_indented_block_unchanged (text : str) :
  has_fence text = false -> has_inline text = false ->
  option_map rest (match_at INDENTED 0 text false) = Some [] ->
  smart_quote_markdown text = Ok text.
Proof. apply Whole.whole_indented_block. Qed.

Lemma X13_single_indented_block_unchanged_witness :
  smart_quote_markdown (lit "    say " ++ dq ++ lit "hi" ++ dq ++ nl ++ [9%Z] ++ sq ++ lit "x" ++ sq)
  = Ok (lit "    say " ++ dq ++ lit "hi" ++ dq ++ nl ++ [9%Z] ++ sq ++ lit "x" ++ sq).
Proof.
  apply X13_single_indented_block_unchanged; vm_compute; reflexivity.
Defined.

(** X14.  The restore loop leaves a text alone in which none of the
    placeholders occurs. *)
Theorem X14_restore_without_placeholder (blocks : list _CodeBlock) (s : str) :
  Forall (fun b => contains (placeholder b) s = false) blocks ->
  restore blocks s = s.
Proof. apply ShieldMore.restore_absent. Qed.

Lemma X14_restore_without_placeholder_witness :
  restore [ {| placeholder := placeholder_0; content := lit "`a`" |} ]
          (lit "no <<SMART_QUOTES_CODE_BLOCK_1>> here")
  = lit "no <<SMART_QUOTES_CODE_BLOCK_1>> here".
Proof.
  apply X14_restore_without_placeholder.
  constructor; [reflexivity|constructor].
Defined.

(** X15.  Prose around one inline span: when the text has no closed fence
    and no indented line, its leftmost inline span [m] stands between [a]
    and [b], no backtick follows the span and the prose holds no [<], the
    result is the Director's output on the whole text with the span put
    back verbatim in its place.  The prose after the span is converted as
    if the span were still before it. *)
Theorem X15_prose_around_one_inline_span (text a m b : str) :
  has_fence text = false ->
  search INLINE 0 text false = Some (a, m, b) ->
  ~ In bt b ->
  has_indented text = false ->
  ~ In 60%Z a -> ~ In 60%Z b ->
  exists full,
    convert_to_smart_quotes text = Ok full /\
    smart_quote_markdown text
    = Ok (firstn (length a) full ++ m ++ skipn (length a + length m) full).
Proof. apply OneSpan.one_span. Qed.

Lemma X15_prose_around_one_inline_span_witness :
  exists full,
    convert_to_smart_quotes
      (lit "say " ++ dq ++ lit "x" ++ dq ++ lit " `a" ++ dq ++ lit "b`"
           ++ sq ++ lit "y" ++ sq)
    = Ok full /\
    smart_quote_markdown
      (lit "say " ++ dq ++ lit "x" ++ dq ++ lit " `a" ++ dq ++ lit "b`"
           ++ sq ++ lit "y" ++ sq)
    = Ok (firstn (length (lit "say " ++ dq ++ lit "x" ++ dq ++ lit " ")) full
            ++ (lit "`a" ++ dq ++ lit "b`")
            ++ skipn (length (lit "say " ++ dq ++ lit "x" ++ dq ++ lit " ")
                      + length (lit "`a" ++ dq ++ lit "b`")) full).
Proof.
  apply (@X15_prose_around_one_inline_span
           (lit "say " ++ dq ++ lit "x" ++ dq ++ lit " `a" ++ dq ++ lit "b`"
                ++ sq ++ lit "y" ++ sq)
           (lit "say " ++ dq ++ lit "x" ++ dq ++ lit " ")
           (lit "`a" ++ dq ++ lit "b`")
           (sq ++ lit "y" ++ sq)).
  - reflexivity.
  - reflexivity.
  - intros H. vm_compute in H. intuition discriminate.
  - reflexivity.
  - intros H. vm_compute in H. intuition discriminate.
  - intros H. vm_compute in H. intuition discriminate.
Defined.

(** X16.  The character [convert_to_smart_quotes] puts at a position
    depends only on the window of that position: two positions, of one
    text or of two, with the same previous, current and next character
    and the same start flag get the same output character. *)
Theorem X16_output_depends_on_window_only
        (t1 t2 : str) (i1 i2 : nat) (o1 o2 : str) :
  convert_to_smart_quotes t1 = Ok o1 ->
  convert_to_smart_quotes t2 = Ok o2 ->
  window t1 i1 = window t2 i2 ->
  nth_error o1 i1 = nth_error o2 i2.
Proof.
  intros H1 H2 Hw.
  destruct (Director.convert_pointwise t1) as (o1' & E1 & N1).
  destruct (Director.convert_pointwise t2) as (o2' & E2 & N2).
  rewrite H1 in E1. rewrite H2 in E2.
  injection E1 as <-. injection E2 as <-.
  rewrite N1, N2. unfold window in Hw.
  injection Hw as -> -> -> ->. reflexivity.
Qed.

Lemma X16_output_depends_on_window_only_witness :
  nth_error (lit "it" ++ [8217%Z] ++ lit "s") 2
  = nth_error (lit "Edit" ++ [8217%Z] ++ lit "s") 4.
Proof.
  apply (@X16_output_depends_on_window_only
           (lit "it" ++ sq ++ lit "s") (lit "Edit" ++ sq ++ lit "s"));
    vm_compute; reflexivity.
Defined.
